(** * Indicator trace: value mapping, layout, gauge composition and transitions

    A shallow embedding of the plot routine of the indicator trace (the
    newer of the two layout variants in the sources) and of the parts of
    the fully-defaulted trace that it reads.

    Numbers.  JavaScript numbers are IEEE-754 doubles.  They are modelled by
    [JSNum.num]: the real numbers extended with [NaN], [+Infinity] and
    [-Infinity].  Arithmetic on finite values is exact real arithmetic (no
    rounding, no overflow) and there is a single zero; the special values
    follow IEEE-754 (x/0, 0/0, Infinity*0, comparisons with NaN, ...).

    State.  What [plot] keeps between calls ([trace._deltaLastValue]), the
    animated attributes of the scene and the transitions it has created
    are threaded explicitly as a [world]; what happens to one indicator
    over time is a sequence of events (renders, and the starts, frames,
    ends and interruptions of transitions).

    Objects.  [mockAxis] works on references; its objects live in a heap
    ([gmap] from locations to property maps), so that sharing between the
    caller's options and the synthetic axis is visible. *)

From Stdlib Require Import Reals Lra List String Bool Arith Lia.
From stdpp Require Import gmap strings.
Import ListNotations.

(* ===================================================================== *)
(** * Part I: definitions                                                 *)
(* ===================================================================== *)

(** ** JavaScript numbers *)

Module JSNum.

Inductive num : Type :=
| NaN
| NegInf
| Fin (r : R)
| PosInf.

(** Sign of a real, as a three-way comparison with zero. *)
Definition sgn (r : R) : comparison :=
  match total_order_T r 0 with
  | inleft (left _) => Lt
  | inleft (right _) => Eq
  | inright _ => Gt
  end.

Definition inf (positive : bool) : num :=
  if positive then PosInf else NegInf.

(** Unary minus. *)
Definition neg (x : num) : num :=
  match x with
  | NaN => NaN
  | NegInf => PosInf
  | Fin r => Fin (- r)
  | PosInf => NegInf
  end.

Definition add (x y : num) : num :=
  match x, y with
  | NaN, _ | _, NaN => NaN
  | PosInf, NegInf | NegInf, PosInf => NaN
  | PosInf, _ | _, PosInf => PosInf
  | NegInf, _ | _, NegInf => NegInf
  | Fin a, Fin b => Fin (a + b)
  end.

Definition sub (x y : num) : num :=
  match x, y with
  | NaN, _ | _, NaN => NaN
  | PosInf, PosInf | NegInf, NegInf => NaN
  | PosInf, _ | _, NegInf => PosInf
  | NegInf, _ | _, PosInf => NegInf
  | Fin a, Fin b => Fin (a - b)
  end.

(** [inf_times positive b]: the product of a signed infinity and the finite
    value [b]. *)
Definition inf_times (positive : bool) (b : R) : num :=
  match sgn b with
  | Gt => inf positive
  | Lt => inf (negb positive)
  | Eq => NaN
  end.

Definition mul (x y : num) : num :=
  match x, y with
  | NaN, _ | _, NaN => NaN
  | Fin a, Fin b => Fin (a * b)
  | PosInf, PosInf | NegInf, NegInf => PosInf
  | PosInf, NegInf | NegInf, PosInf => NegInf
  | PosInf, Fin b | Fin b, PosInf => inf_times true b
  | NegInf, Fin b | Fin b, NegInf => inf_times false b
  end.

(** Division.  A zero divisor is the positive zero. *)
Definition div (x y : num) : num :=
  match x, y with
  | NaN, _ | _, NaN => NaN
  | Fin a, Fin b =>
      match sgn b with
      | Eq => match sgn a with
              | Gt => PosInf
              | Lt => NegInf
              | Eq => NaN
              end
      | _ => Fin (a / b)
      end
  | Fin _, PosInf | Fin _, NegInf => Fin 0
  | PosInf, PosInf | PosInf, NegInf | NegInf, PosInf | NegInf, NegInf => NaN
  | PosInf, Fin b => match sgn b with Lt => NegInf | _ => PosInf end
  | NegInf, Fin b => match sgn b with Lt => PosInf | _ => NegInf end
  end.

(** [x < y]; false as soon as one side is NaN. *)
Definition ltb (x y : num) : bool :=
  match x, y with
  | NaN, _ | _, NaN => false
  | _, NegInf => false
  | NegInf, _ => true
  | PosInf, _ => false
  | Fin _, PosInf => true
  | Fin a, Fin b => if Rlt_dec a b then true else false
  end.

Definition gtb (x y : num) : bool := ltb y x.

(** [x === y] on numbers: NaN is not equal to itself. *)
Definition eqb (x y : num) : bool :=
  match x, y with
  | NegInf, NegInf | PosInf, PosInf => true
  | Fin a, Fin b => if Req_dec_T a b then true else false
  | _, _ => false
  end.

(** [Math.min(x, y)]: NaN when either argument is. *)
Definition min (x y : num) : num :=
  match x, y with
  | NaN, _ | _, NaN => NaN
  | _, _ => if ltb y x then y else x
  end.

(** [Math.max(x, y)]. *)
Definition max (x y : num) : num :=
  match x, y with
  | NaN, _ | _, NaN => NaN
  | _, _ => if ltb x y then y else x
  end.

(** ToBoolean on a number: [NaN] and zero are falsy. *)
Definition truthy (x : num) : bool :=
  match x with
  | NaN => false
  | Fin r => if Req_dec_T r 0 then false else true
  | _ => true
  end.

(** [Math.PI]. *)
Definition Math_PI : num := Fin PI.

End JSNum.

Export JSNum.

Declare Scope num_scope.
Delimit Scope num_scope with num.
Bind Scope num_scope with num.
Notation "x + y" := (add x y) : num_scope.
Notation "x - y" := (sub x y) : num_scope.
Notation "x * y" := (mul x y) : num_scope.
Notation "x / y" := (div x y) : num_scope.
Notation "- x" := (neg x) : num_scope.
Notation "x <? y" := (ltb x y) : num_scope.
Notation "x >? y" := (gtb x y) : num_scope.

(** Numeric literals of the source. *)
Definition num0 : num := Fin 0.
Definition num1 : num := Fin 1.
Definition num2 : num := Fin 2.

(** ** Data model: the fully-defaulted trace read by [plot] *)

Inductive align := AlignLeft | AlignCenter | AlignRight.
Inductive shape := Angular | Bullet.
Inductive deltaPosition := PosTop | PosBottom | PosLeft | PosRight.

Record lineOpts := {
  line_color : string;
  line_width : num
}.

(** The objects bound to gauge arcs and rectangles: [gaugeBg],
    [gaugeOutline], [thresholdArc], the steps and [gauge.value]. *)
Record arcData := {
  range : num * num;
  color : string;
  line : lineOpts;
  height : num
}.

Record thresholdOpts := {
  threshold_value : option num;      (* [None] is [undefined] *)
  threshold_color : string;
  threshold_width : num;
  threshold_height : num
}.

Record gaugeOpts := {
  gauge_shape : shape;
  bgcolor : string;
  bordercolor : string;
  borderwidth : num;
  gauge_value : arcData;
  steps : list arcData;
  threshold : thresholdOpts
}.

Record symbolOpts := {
  symbol : string;
  symbol_color : string
}.

Record deltaOpts := {
  showpercentage : bool;
  increasing : symbolOpts;
  decreasing : symbolOpts;
  delta_position : deltaPosition
}.

Record trace := {
  mode : string;
  tmin : num;                        (* [trace.min] *)
  tmax : num;                        (* [trace.max] *)
  title_text : string;
  title_align : align;
  number_suffix : string;
  number_align : align;
  delta : deltaOpts;
  gauge : gaugeOpts
}.

(** One calcdata point [cd[0]]. *)
Record calcPoint := {
  y : num;
  lastY : num;
  cd_delta : num;                    (* [d.delta] *)
  relativeDelta : num
}.

(** ** Value mapper *)

Section ValueMapper.
Variable tr : trace.

Definition theta : num := (Math_PI / num2)%num.

Definition valueToAngle (v : num) : num :=
  let angle := ((v - tmin tr) / (tmax tr - tmin tr) * Math_PI - theta)%num in
  if (angle <? - theta)%num then (- theta)%num
  else if (angle >? theta)%num then theta
  else angle.

End ValueMapper.

(** The real-valued clamp that [valueToAngle] computes on finite angles. *)
Definition clampAngle (x : R) : R :=
  if Rlt_dec x (- (PI / 2)) then (- (PI / 2))%R
  else if Rlt_dec (PI / 2) x then (PI / 2)%R
  else x.

(** ** Mode flags *)

(** [hay.indexOf(needle) !== -1]. *)
Definition contains (needle hay : string) : bool :=
  match String.index 0 needle hay with
  | Some _ => true
  | None => false
  end.

Definition hasBigNumber (tr : trace) : bool := contains "bignumber" (mode tr).
Definition hasDelta (tr : trace) : bool := contains "delta" (mode tr).
Definition hasGauge (tr : trace) : bool := contains "gauge" (mode tr).

Definition isAngular (tr : trace) : bool :=
  hasGauge tr && match gauge_shape (gauge tr) with Angular => true | Bullet => false end.

Definition isBullet (tr : trace) : bool :=
  hasGauge tr && match gauge_shape (gauge tr) with Bullet => true | Angular => false end.

(** ** Layout planner *)

(** The pixel box of the trace domain, [size]. *)
Record boxSize := {
  w : num; h : num; l : num; r : num; t : num; b : num
}.

(** The table [position]. *)
Definition position (a : align) : num :=
  match a with
  | AlignLeft => Fin 0
  | AlignCenter => Fin 0.5
  | AlignRight => Fin 1
  end.

(** The constants of [./constants] that the layout reads.  The module is
    not part of the sources at hand; its values are parameters. *)
Record constants := {
  cn_innerRadius : num;
  cn_bulletHeight : num;
  cn_bulletPadding : num;
  cn_bulletTitleSize : num
}.

Record layout := {
  titleX : num;
  titleY : num;
  titleFontSize : num;
  numbersX : num;
  numbersY : num;
  numbersMaxWidth : num;
  numbersMaxHeight : num;
  bignumberFontSize : num;
  deltaFontSize : num;
  gaugePosition : num * num;
  deltaDy : option num;              (* [None] is [undefined] *)
  deltaX : option num
}.

Definition set_deltaFontSize (v : num) (L : layout) : layout :=
  {| titleX := titleX L; titleY := titleY L; titleFontSize := titleFontSize L;
     numbersX := numbersX L; numbersY := numbersY L;
     numbersMaxWidth := numbersMaxWidth L;
     numbersMaxHeight := numbersMaxHeight L;
     bignumberFontSize := bignumberFontSize L; deltaFontSize := v;
     gaugePosition := gaugePosition L; deltaDy := deltaDy L;
     deltaX := deltaX L |}.

(** The assignments of the [hasDelta && hasBigNumber] block. *)
Definition set_deltaOffsets (dy dx : option num) (ny : num) (L : layout)
  : layout :=
  {| titleX := titleX L; titleY := titleY L; titleFontSize := titleFontSize L;
     numbersX := numbersX L; numbersY := ny;
     numbersMaxWidth := numbersMaxWidth L;
     numbersMaxHeight := numbersMaxHeight L;
     bignumberFontSize := bignumberFontSize L;
     deltaFontSize := deltaFontSize L;
     gaugePosition := gaugePosition L; deltaDy := dy; deltaX := dx |}.

Section LayoutPlanner.
Variable cn : constants.
Variable fmt : num -> string.        (* [d3.format(trace.valueformat)] *)
Variable tr : trace.
Variable size : boxSize.

Local Open Scope num_scope.

(** [fmt(trace.max).length] *)
Definition maxLength : num := Fin (INR (String.length (fmt (tmax tr)))).

Definition radius : num :=
  min (Fin 0.85 * w size / num2) (h size * Fin 0.65 - Fin 20).

Definition innerRadius : num := cn_innerRadius cn * radius.

Definition isWide : bool := w size / num2 >? h size * Fin 0.65 - Fin 20.

Definition bulletHeight : num := min (cn_bulletHeight cn) (h size / num2).

Definition centerX : num := l size + w size / num2.

(** The branch [!hasGauge]. *)
Definition layoutNoGauge : layout :=
  let numbersX := l size + position (number_align tr) * w size in
  let bignumberFontSize := min (w size / maxLength) (h size / Fin 3) in
  let deltaFontSize :=
    if hasBigNumber tr then Fin 0.5 * bignumberFontSize
    else bignumberFontSize in
  let titleFontSize := Fin 0.35 * bignumberFontSize in
  let titleY := t size + max (titleFontSize / num2) (h size / Fin 5) in
  {| titleX := l size + w size * position (title_align tr);
     titleY := titleY; titleFontSize := titleFontSize;
     numbersX := numbersX; numbersY := t size + h size / num2;
     numbersMaxWidth := Fin 0.85 * w size; numbersMaxHeight := h size;
     bignumberFontSize := bignumberFontSize; deltaFontSize := deltaFontSize;
     gaugePosition := (num0, num0); deltaDy := None; deltaX := Some num0 |}.

(** The branch [isAngular]. *)
Definition layoutAngular : layout :=
  let numbersX :=
    centerX - Fin 0.85 * innerRadius
    + num2 * Fin 0.85 * innerRadius * position (number_align tr) in
  let numbersMaxWidth := num2 * innerRadius * Fin 0.85 in
  let numbersMaxHeight := innerRadius * Fin 0.85 in
  let numbersY0 :=
    if isWide then t size + h size - Fin 0.15 * h size
    else t size + h size / num2 in
  let gaugePosition := (centerX, numbersY0) in
  let bignumberFontSize := num2 * innerRadius / maxLength in
  let numbersY := numbersY0 - bignumberFontSize / num2 in
  let deltaFontSize := Fin 0.35 * bignumberFontSize in
  let titleFontSize := Fin 0.35 * bignumberFontSize in
  let titleY :=
    if isWide then t size + (Fin 0.25 / num2) * h size - titleFontSize / num2
    else ((numbersY - radius) + t size) / num2 in
  {| titleX := l size + w size * position (title_align tr);
     titleY := titleY; titleFontSize := titleFontSize;
     numbersX := numbersX; numbersY := numbersY;
     numbersMaxWidth := numbersMaxWidth; numbersMaxHeight := numbersMaxHeight;
     bignumberFontSize := bignumberFontSize; deltaFontSize := deltaFontSize;
     gaugePosition := gaugePosition; deltaDy := None; deltaX := Some num0 |}.

(** The branch [isBullet]. *)
Definition layoutBullet : layout :=
  let padding := cn_bulletPadding cn in
  let p := (num1 - cn_bulletTitleSize cn) + padding in
  let numbersMaxWidth := (cn_bulletTitleSize cn - padding) * w size in
  let bignumberFontSize :=
    min (Fin 0.2 * w size / maxLength) bulletHeight in
  let numbersY := t size + h size / num2 in
  let titleX :=
    l size
    + (cn_bulletTitleSize cn - padding) * w size * position (title_align tr) in
  let numbersX :=
    l size + (p + (num1 - p) * position (number_align tr)) * w size in
  let deltaFontSize := Fin 0.5 * bignumberFontSize in
  let titleFontSize := Fin 0.4 * bignumberFontSize in
  {| titleX := titleX; titleY := numbersY; titleFontSize := titleFontSize;
     numbersX := numbersX; numbersY := numbersY;
     numbersMaxWidth := numbersMaxWidth; numbersMaxHeight := h size;
     bignumberFontSize := bignumberFontSize; deltaFontSize := deltaFontSize;
     gaugePosition := (num0, num0); deltaDy := None; deltaX := Some num0 |}.

(** Font sizes and positions up to the end of the [hasGauge] conditional.
    With a gauge the shape is one of the two enumerated values, so exactly
    one of [isAngular] and [isBullet] holds. *)
Definition layoutSizes : layout :=
  if negb (hasGauge tr) then layoutNoGauge
  else
    let L := match gauge_shape (gauge tr) with
             | Angular => layoutAngular
             | Bullet => layoutBullet
             end in
    if negb (hasBigNumber tr)
    then set_deltaFontSize (Fin 0.75 * bignumberFontSize L) L
    else L.

(** Placement of the delta relative to the number. *)
Definition planLayout : layout :=
  let L := layoutSizes in
  if hasDelta tr && hasBigNumber tr then
    match delta_position (delta tr) with
    | PosBottom =>
        set_deltaOffsets
          (Some (bignumberFontSize L / num2 + deltaFontSize L / num2))
          (deltaX L) (numbersY L) L
    | PosTop =>
        set_deltaOffsets
          (Some (- (bignumberFontSize L / num2 + deltaFontSize L / num2)))
          (deltaX L) (numbersY L + deltaFontSize L) L
    | PosRight => set_deltaOffsets None None (numbersY L) L
    | PosLeft => set_deltaOffsets None None (numbersY L) L
    end
  else L.

End LayoutPlanner.

(** ** Fit-to-box *)

(** The result of [Drawing.bBox]. *)
Record bbox := {
  bb_width : num;
  bb_height : num
}.

(** [fitTextInside(el, width, height)], given the bounding box measured on
    [el.node()]. *)
Definition fitTextInside (textBB : bbox) (width height : num) : num :=
  let ratio := min (width / bb_width textBB) (height / bb_height textBB) in
  ratio.

(** The value of a [transform] attribute
    [strTranslate(x, y) + ' ' + (scaleRatio < 1 ? 'scale(' + scaleRatio + ')' : '')],
    kept structured: a translation and the optional scale term. *)
Record transform := {
  translate : num * num;
  scale : option num
}.

Definition numbersTransform (L : layout) (textBB : bbox) : transform :=
  let scaleRatio :=
    fitTextInside textBB (numbersMaxWidth L) (numbersMaxHeight L) in
  {| translate := (numbersX L, numbersY L);
     scale := if (scaleRatio <? num1)%num then Some scaleRatio else None |}.

(** The scale factor a transform applies; without a scale term it is 1. *)
Definition appliedScale (tf : transform) : num :=
  match scale tf with
  | Some s => s
  | None => num1
  end.


(** ** Scene composer: the gauge groups *)

(** ToBoolean and ToNumber on a value that may be [undefined]. *)
Definition truthyValue (v : option num) : bool :=
  match v with
  | Some x => truthy x
  | None => false
  end.

Definition toNumber (v : option num) : num :=
  match v with
  | Some x => x
  | None => NaN
  end.

(** What a drawn element stands for.  The label is bookkeeping of the
    model; the drawing code distinguishes elements by class and datum. *)
Inductive part :=
| Background
| StepRange (s : arcData)
| ThresholdMarker
| ValueShape
| Outline.

Inductive geometry :=
| ArcPath (startAngle endAngle size : num)
| Rect (x y : option num) (width height : num)
| LineSeg (x1 x2 y1 y2 : num).

(** A child of a gauge group, in document order: later children are
    painted over earlier ones. *)
Record node := {
  cls : string;
  label : part;
  geom : geometry;
  fill : option string;
  stroke : string;
  stroke_width : num
}.

Section GaugeComposer.
Variable cn : constants.
Variable size : boxSize.
Variable c2p : num -> num.           (* [ax.c2p] of the mocked axis *)
Variable tr : trace.
Variable cd0 : calcPoint.

Local Open Scope num_scope.

Definition gaugeBg : arcData :=
  {| range := (tmin tr, tmax tr);
     color := bgcolor (gauge tr);
     line := {| line_color := bordercolor (gauge tr); line_width := num0 |};
     height := num1 |}.

Definition gaugeOutline : arcData :=
  {| range := (tmin tr, tmax tr);
     color := "rgba(0, 0, 0, 0)";
     line := {| line_color := bordercolor (gauge tr);
                line_width := borderwidth (gauge tr) |};
     height := num1 |}.

Definition thresholdArc : arcData :=
  let v := toNumber (threshold_value (threshold (gauge tr))) in
  {| range := (v, v);
     color := threshold_color (threshold (gauge tr));
     line := {| line_color := threshold_color (threshold (gauge tr));
                line_width := threshold_width (threshold (gauge tr)) |};
     height := threshold_height (threshold (gauge tr)) |}.

(** [drawArc] followed by [styleArc] on the path of one arc group. *)
Definition arcNode (class : string) (lbl : part) (d : arcData) : node :=
  {| cls := class; label := lbl;
     geom := ArcPath (valueToAngle tr (fst (range d)))
                     (valueToAngle tr (snd (range d))) (height d);
     fill := Some (color d);
     stroke := line_color (line d);
     stroke_width := line_width (line d) |}.

(** The array [arcs], each entry with its label. *)
Definition arcs : list (part * arcData) :=
  let arcs :=
    [(Background, gaugeBg)]
    ++ List.map (fun s => (StepRange s, s)) (steps (gauge tr)) in
  if truthyValue (threshold_value (threshold (gauge tr)))
  then arcs ++ [(ThresholdMarker, thresholdArc)]
  else arcs.

(** The foreground arc at rest on the current value. *)
Definition fgArcNode : node :=
  let value := gauge_value (gauge tr) in
  {| cls := "fgArc"; label := ValueShape;
     geom := ArcPath (- theta) (valueToAngle tr (y cd0)) (height value);
     fill := Some (color value);
     stroke := line_color (line value);
     stroke_width := line_width (line value) |}.

(** Children of [g.gauge] after drawing into a fresh group: the joins
    [g.targetArc], [g.fgArc], [g.gaugeOutline] append their entering
    elements in this order. *)
Definition angularGauge : list node :=
  List.map (fun pa => arcNode "targetArc" (fst pa) (snd pa)) arcs
  ++ [fgArcNode]
  ++ [arcNode "gaugeOutline" Outline gaugeOutline].

(** The rectangle of a bullet background, step or outline. *)
Definition bulletRect (class : string) (lbl : part) (d : arcData) : node :=
  {| cls := class; label := lbl;
     geom := Rect (Some (c2p (fst (range d)))) None
                  (max num0 (c2p (snd (range d) - fst (range d))))
                  (bulletHeight cn size);
     fill := Some (color d);
     stroke := line_color (line d);
     stroke_width := line_width (line d) |}.

(** The value bar at rest on the current value. *)
Definition fgBulletNode : node :=
  let value := gauge_value (gauge tr) in
  let innerBulletHeight := height value * bulletHeight cn size in
  {| cls := "fgBullet"; label := ValueShape;
     geom := Rect None
                  (Some ((bulletHeight cn size - innerBulletHeight) / num2))
                  (max num0 (c2p (min (tmax tr) (y cd0))))
                  innerBulletHeight;
     fill := Some (color value);
     stroke := line_color (line value);
     stroke_width := line_width (line value) |}.

Definition thresholdLine : node :=
  let th := threshold (gauge tr) in
  let x := c2p (toNumber (threshold_value th)) in
  {| cls := "threshold"; label := ThresholdMarker;
     geom := LineSeg x x
               ((num1 - threshold_height th) / num2 * bulletHeight cn size)
               ((num1 - (num1 - threshold_height th) / num2)
                * bulletHeight cn size);
     fill := None;
     stroke := threshold_color th;
     stroke_width := threshold_width th |}.

(** [cd.filter(function() {return trace.gauge.threshold.value;})] on the
    one-point calcdata, as the list of threshold elements to draw. *)
Definition thresholdData : list node :=
  if truthyValue (threshold_value (threshold (gauge tr)))
  then [thresholdLine]
  else [].

(** Children of [g.bullet] after drawing into a fresh group: the joins
    [g.targetBullet], [g.fgBullet], [g.threshold], [g.bulletOutline]
    append their entering elements in this order. *)
Definition bulletGauge : list node :=
  List.map (fun pa => bulletRect "targetBullet" (fst pa) (snd pa))
           ([(Background, gaugeBg)]
            ++ List.map (fun s => (StepRange s, s)) (steps (gauge tr)))
  ++ [fgBulletNode]
  ++ thresholdData
  ++ [bulletRect "bulletOutline" Outline gaugeOutline].

(** The labels contributed by the threshold: one marker when the configured
    value is truthy, nothing otherwise. *)
Definition thresholdPart : list part :=
  if truthyValue (threshold_value (threshold (gauge tr)))
  then [ThresholdMarker]
  else [].

End GaugeComposer.

(** The z-order of a drawn gauge: the labels of its elements, bottom-most
    first. *)
Definition zorder (nodes : list node) : list part := List.map label nodes.


(** ** Transition orchestrator *)

Record transitionOpts := {
  duration : num;
  easing : string
}.

(** [transitionOpts && transitionOpts.duration > 0] *)
Definition hasTransition (transitionOpts : option transitionOpts) : bool :=
  match transitionOpts with
  | Some o => (duration o >? num0)%num
  | None => false
  end.

(** The element groups that [plot] animates. *)
Inductive group := NumberText | DeltaText | GaugeArc | GaugeBar.

Definition group_eqb (g1 g2 : group) : bool :=
  match g1, g2 with
  | NumberText, NumberText | DeltaText, DeltaText
  | GaugeArc, GaugeArc | GaugeBar, GaugeBar => true
  | _, _ => false
  end.

(** Modelled from the spec: the life cycle of a transition (sections 4.6
    and 5); the transition engine itself, d3, is not part of the sources.
    A transition created by a render waits ([Scheduled]) until its timer
    fires, then interpolates ([Animating]); it leaves that state on natural
    completion ([Ended], after its ['end'] event) or when it is cancelled
    by a newer transition on the same element ([Interrupted], after its
    ['interrupt'] event).  A transition still waiting when a newer one
    starts on its element is dropped ([Cancelled]) without an event: it
    never started.  The Idle state of the spec is an element with no
    [Animating] transition. *)
Inductive phase := Scheduled | Animating | Ended | Interrupted | Cancelled.

Definition phase_eq_dec (p q : phase) : {p = q} + {p <> q}.
Proof. decide equality. Defined.

(** One transition created by [plot], with what its closures captured.
    The handlers and tween factories receive the datum bound to the element;
    it is the datum bound by the render that created the transition. *)
Record transition := {
  grp : group;
  ttrace : trace;                    (* [trace] *)
  datum : calcPoint;                 (* [cd[0]], the datum bound to the element *)
  onComplete : option nat;           (* the callback, when one was made *)
  source : num;                      (* where the tween starts, fixed at start *)
  ph : phase
}.

(** The state that outlives a call of [plot]: the private field
    [trace._deltaLastValue], the animated attributes of the scene ([None]
    when the element does not exist; an attribute not yet set reads as the
    empty text or as [NaN]), the transitions created so far (a transition
    is identified by its index), the number of callbacks handed out by
    [makeOnCompleteCallback], and the log of [onComplete()] calls, each
    recorded with the transition whose handler made it. *)
Record world := {
  deltaLastValue : option num;
  numberText : option string;
  deltaText : option string;
  arcEnd : option num;
  barWidth : option num;
  transitions : list transition;
  callbacks : nat;
  completions : list (nat * nat)
}.

Definition initial : world :=
  {| deltaLastValue := None; numberText := None; deltaText := None;
     arcEnd := None; barWidth := None; transitions := []; callbacks := 0;
     completions := [] |}.

Definition set_deltaLastValue (v : option num) (w : world) : world :=
  {| deltaLastValue := v; numberText := numberText w;
     deltaText := deltaText w; arcEnd := arcEnd w; barWidth := barWidth w;
     transitions := transitions w; callbacks := callbacks w;
     completions := completions w |}.

Definition set_numberText (v : option string) (w : world) : world :=
  {| deltaLastValue := deltaLastValue w; numberText := v;
     deltaText := deltaText w; arcEnd := arcEnd w; barWidth := barWidth w;
     transitions := transitions w; callbacks := callbacks w;
     completions := completions w |}.

Definition set_deltaText (v : option string) (w : world) : world :=
  {| deltaLastValue := deltaLastValue w; numberText := numberText w;
     deltaText := v; arcEnd := arcEnd w; barWidth := barWidth w;
     transitions := transitions w; callbacks := callbacks w;
     completions := completions w |}.

Definition set_arcEnd (v : option num) (w : world) : world :=
  {| deltaLastValue := deltaLastValue w; numberText := numberText w;
     deltaText := deltaText w; arcEnd := v; barWidth := barWidth w;
     transitions := transitions w; callbacks := callbacks w;
     completions := completions w |}.

Definition set_barWidth (v : option num) (w : world) : world :=
  {| deltaLastValue := deltaLastValue w; numberText := numberText w;
     deltaText := deltaText w; arcEnd := arcEnd w; barWidth := v;
     transitions := transitions w; callbacks := callbacks w;
     completions := completions w |}.

Definition set_transitions (v : list transition) (w : world) : world :=
  {| deltaLastValue := deltaLastValue w; numberText := numberText w;
     deltaText := deltaText w; arcEnd := arcEnd w; barWidth := barWidth w;
     transitions := v; callbacks := callbacks w;
     completions := completions w |}.

Definition set_callbacks (v : nat) (w : world) : world :=
  {| deltaLastValue := deltaLastValue w; numberText := numberText w;
     deltaText := deltaText w; arcEnd := arcEnd w; barWidth := barWidth w;
     transitions := transitions w; callbacks := v;
     completions := completions w |}.

Definition set_completions (v : list (nat * nat)) (w : world) : world :=
  {| deltaLastValue := deltaLastValue w; numberText := numberText w;
     deltaText := deltaText w; arcEnd := arcEnd w; barWidth := barWidth w;
     transitions := transitions w; callbacks := callbacks w;
     completions := v |}.

Definition set_phase (p : phase) (tn : transition) : transition :=
  {| grp := grp tn; ttrace := ttrace tn; datum := datum tn;
     onComplete := onComplete tn; source := source tn; ph := p |}.

Definition set_source (v : num) (tn : transition) : transition :=
  {| grp := grp tn; ttrace := ttrace tn; datum := datum tn;
     onComplete := onComplete tn; source := v; ph := ph tn |}.

(** Modelled from the spec: the interpolation of a rendered value from its
    previous to its new state, [d3.interpolateNumber(a, b)(t)]: linear in
    [t], [a] at 0 and [b] at 1. *)
Definition interpolateNumber (a b t : num) : num :=
  (a * (num1 - t) + b * t)%num.

(** [deltaValue(d)] *)
Definition deltaValue (tr : trace) (d : calcPoint) : num :=
  let value := if showpercentage (delta tr) then relativeDelta d
               else cd_delta d in
  value.

(** [bignumberSuffix] after [if(bignumberSuffix) bignumberSuffix = ' ' + bignumberSuffix]. *)
Definition bignumberSuffix (tr : trace) : string :=
  match number_suffix tr with
  | EmptyString => EmptyString
  | sfx => String.append " " sfx
  end.

Section Orchestrator.
Variable fmt : num -> string.        (* [d3.format(trace.valueformat)] *)
Variable deltaFmt : num -> string.   (* [d3.format(trace.delta.valueformat)] *)
Variable c2p : num -> num.           (* [ax.c2p] of the mocked bullet axis *)

(** [deltaFormatText(value)] *)
Definition deltaFormatText (tr : trace) (value : num) : string :=
  if eqb value num0 then "-"
  else String.append
         (if (value >? num0)%num then symbol (increasing (delta tr))
          else symbol (decreasing (delta tr)))
         (deltaFmt value).

(** [Math.max(0, ax.c2p(Math.min(trace.max, cd[0].y)))] *)
Definition barTarget (tr : trace) (cd0 : calcPoint) : num :=
  max num0 (c2p (min (tmax tr) (y cd0))).

(** Where the tween of a transition ends. *)
Definition target (tn : transition) : num :=
  match grp tn with
  | NumberText => y (datum tn)
  | DeltaText => deltaValue (ttrace tn) (datum tn)
  | GaugeArc => valueToAngle (ttrace tn) (y (datum tn))
  | GaugeBar => barTarget (ttrace tn) (datum tn)
  end.

(** Where the tween of a transition starts; the tween factories run when
    the transition starts.  The delta text reads [trace._deltaLastValue],
    the width transition reads the current attribute. *)
Definition tweenSource (tn : transition) (w : world) : num :=
  match grp tn with
  | NumberText => lastY (datum tn)
  | DeltaText => toNumber (deltaLastValue w)
  | GaugeArc => valueToAngle (ttrace tn) (lastY (datum tn))
  | GaugeBar => toNumber (barWidth w)
  end.

(** One frame of a running tween at eased time [e]; the attribute is
    written on the element if it exists. *)
Definition applyTween (tn : transition) (e : num) (w : world) : world :=
  let v := interpolateNumber (source tn) (target tn) e in
  match grp tn with
  | NumberText =>
      match numberText w with
      | Some _ =>
          set_numberText
            (Some (String.append (fmt v) (bignumberSuffix (ttrace tn)))) w
      | None => w
      end
  | DeltaText =>
      match deltaText w with
      | Some _ => set_deltaText (Some (deltaFormatText (ttrace tn) v)) w
      | None => w
      end
  | GaugeArc =>
      match arcEnd w with
      | Some _ => set_arcEnd (Some v) w
      | None => w
      end
  | GaugeBar =>
      match barWidth w with
      | Some _ => set_barWidth (Some v) w
      | None => w
      end
  end.

(** [onComplete && onComplete()], called from a handler of transition [i]. *)
Definition callOnComplete (i : nat) (tn : transition) (w : world) : world :=
  match onComplete tn with
  | Some c => set_completions (completions w ++ [(i, c)]) w
  | None => w
  end.

(** The ['end'] handlers. *)
Definition onEnd (i : nat) (tn : transition) (w : world) : world :=
  match grp tn with
  | DeltaText =>
      callOnComplete i tn
        (set_deltaLastValue (Some (deltaValue (ttrace tn) (datum tn))) w)
  | _ => callOnComplete i tn w
  end.

(** The ['interrupt'] handlers. *)
Definition onInterrupt (i : nat) (tn : transition) (w : world) : world :=
  callOnComplete i tn w.

Definition set_phaseAt (i : nat) (p : phase) (w : world) : world :=
  match transitions w !! i with
  | Some tn => set_transitions (<[i := set_phase p tn]> (transitions w)) w
  | None => w
  end.

(** Modelled from the spec: cancelling a running transition stops it and
    synchronously fires its ['interrupt'] handler; nothing happens to a
    transition that is not running. *)
Definition interruptAt (i : nat) (w : world) : world :=
  match transitions w !! i with
  | Some tn =>
      match ph tn with
      | Animating => onInterrupt i tn (set_phaseAt i Interrupted w)
      | _ => w
      end
  | None => w
  end.

(** Modelled from the spec: a transition that has not started yet is
    dropped without an event. *)
Definition cancelAt (i : nat) (w : world) : world :=
  match transitions w !! i with
  | Some tn =>
      match ph tn with
      | Scheduled => set_phaseAt i Cancelled w
      | _ => w
      end
  | None => w
  end.

(** Modelled from the spec: what the start of transition [i] on the
    element of group [g] does to transition [j]: a running transition on
    the same element is interrupted, an older waiting one is dropped. *)
Definition supersedeAt (g : group) (i : nat) (w : world) (j : nat) : world :=
  match transitions w !! j with
  | Some u =>
      if group_eqb (grp u) g
      then interruptAt j (if j <? i then cancelAt j w else w)
      else w
  | None => w
  end.

(** Modelled from the spec: the start of transition [i] supersedes every
    other transition on the element of group [g]. *)
Definition supersede (g : group) (i : nat) (w : world) : world :=
  List.fold_left (supersedeAt g i) (List.seq 0 (length (transitions w))) w.

(** Modelled from the spec: the timer of transition [i] fires.  The
    transition supersedes what runs or waits on its element, then its tween
    factory runs and fixes the source of the interpolation. *)
Definition start (i : nat) (w : world) : world :=
  match transitions w !! i with
  | Some tn =>
      match ph tn with
      | Scheduled =>
          let w1 := supersede (grp tn) i w in
          set_transitions
            (<[i := set_phase Animating (set_source (tweenSource tn w1) tn)]>
               (transitions w1)) w1
      | _ => w
      end
  | None => w
  end.

(** Modelled from the spec: one frame of the running transition [i]. *)
Definition tick (i : nat) (e : num) (w : world) : world :=
  match transitions w !! i with
  | Some tn =>
      match ph tn with
      | Animating => applyTween tn e w
      | _ => w
      end
  | None => w
  end.

(** Modelled from the spec: natural completion of the running transition
    [i]: the tween runs a last time at 1, then the ['end'] handler fires. *)
Definition finish (i : nat) (w : world) : world :=
  match transitions w !! i with
  | Some tn =>
      match ph tn with
      | Animating =>
          onEnd i tn (set_phaseAt i Ended (applyTween tn num1 w))
      | _ => w
      end
  | None => w
  end.

(** [selection.transition()] on the element of group [g], when it exists. *)
Definition schedule (present : bool) (g : group) (tr : trace)
           (cd0 : calcPoint) (cb : option nat) (w : world) : world :=
  if present then
    set_transitions
      (transitions w
       ++ [{| grp := g; ttrace := tr; datum := cd0; onComplete := cb;
              source := NaN; ph := Scheduled |}]) w
  else w.

(** The data join of an animated element: it exists exactly when its
    feature is on; an entering element has no attribute yet. *)
Definition joined {A : Type} (present : bool) (fresh : A) (old : option A)
  : option A :=
  if present then Some (match old with Some a => a | None => fresh end)
  else None.

(** Writing an attribute on a selection: nothing happens when the
    selection is empty. *)
Definition written {A : Type} (v : A) (old : option A) : option A :=
  match old with
  | Some _ => Some v
  | None => None
  end.

(** The body of [plot] for one trace, restricted to the animated elements
    and the state they share.  [makeOnCompleteCallback] tells whether the
    caller passed a callback factory. *)
Definition plot (transitionOpts : option transitionOpts)
           (makeOnCompleteCallback : bool) (tr : trace) (cd0 : calcPoint)
           (w : world) : world :=
  let made := hasTransition transitionOpts && makeOnCompleteCallback in
  let onComplete := if made then Some (callbacks w) else None in
  let w := if made then set_callbacks (S (callbacks w)) w else w in
  let w := if truthyValue (deltaLastValue w) then w
           else set_deltaLastValue (Some num0) w in
  let w := set_numberText
             (joined (hasBigNumber tr) EmptyString (numberText w)) w in
  let w := set_deltaText (joined (hasDelta tr) EmptyString (deltaText w)) w in
  let w :=
    if hasTransition transitionOpts
    then schedule (hasBigNumber tr) NumberText tr cd0 onComplete w
    else set_numberText
           (written (String.append (fmt (y cd0)) (bignumberSuffix tr))
                    (numberText w)) w in
  let w :=
    if hasTransition transitionOpts
    then schedule (hasDelta tr) DeltaText tr cd0 onComplete w
    else set_deltaText
           (written (deltaFormatText tr (deltaValue tr cd0)) (deltaText w)) w in
  let w := set_arcEnd (joined (isAngular tr) NaN (arcEnd w)) w in
  let w :=
    if hasTransition transitionOpts
    then schedule (isAngular tr) GaugeArc tr cd0 onComplete w
    else set_arcEnd (written (valueToAngle tr (y cd0)) (arcEnd w)) w in
  let w := set_barWidth (joined (isBullet tr) NaN (barWidth w)) w in
  let w :=
    if hasTransition transitionOpts
    then schedule (isBullet tr) GaugeBar tr cd0 onComplete w
    else set_barWidth (written (barTarget tr cd0) (barWidth w)) w in
  w.

(** What happens to one indicator over time. *)
Inductive event :=
| Render (transitionOpts : option transitionOpts)
         (makeOnCompleteCallback : bool) (tr : trace) (cd0 : calcPoint)
| Start (i : nat)
| Tick (i : nat) (e : num)
| End (i : nat)
| Interrupt (i : nat).

Definition step (ev : event) (w : world) : world :=
  match ev with
  | Render o mk tr cd0 => plot o mk tr cd0 w
  | Start i => start i w
  | Tick i e => tick i e w
  | End i => finish i w
  | Interrupt i => interruptAt i w
  end.

Definition run (evs : list event) (w : world) : world :=
  List.fold_left (fun w ev => step ev w) evs w.

End Orchestrator.

(** The transitions an animated render creates, in creation order: one
    for each animated element that exists. *)
Definition scheduledBy (tr : trace) (cd0 : calcPoint) (cb : option nat)
  : list transition :=
  let mk g := {| grp := g; ttrace := tr; datum := cd0; onComplete := cb;
                 source := NaN; ph := Scheduled |} in
  (if hasBigNumber tr then [mk NumberText] else [])
  ++ (if hasDelta tr then [mk DeltaText] else [])
  ++ (if isAngular tr then [mk GaugeArc] else [])
  ++ (if isBullet tr then [mk GaugeBar] else []).

Definition isEnd (ev : event) : bool :=
  match ev with
  | End _ => true
  | _ => false
  end.

(** How many times a handler of transition [i] has called [onComplete]. *)
Definition invocations (i : nat) (log : list (nat * nat)) : nat :=
  length (List.filter (fun p => fst p =? i) log).

(** How many [onComplete] calls a transition owes so far: one once it has
    ended or been interrupted, if a callback was made for it. *)
Definition completed (tn : transition) : nat :=
  match onComplete tn, ph tn with
  | Some _, Ended | Some _, Interrupted => 1
  | _, _ => 0
  end.

(** Every transition has been charged exactly the [onComplete] calls it
    owes, and nothing has been charged to a transition that does not exist. *)
Definition accounted (ts : list transition) (log : list (nat * nat)) : Prop :=
  (forall i tn, ts !! i = Some tn -> invocations i log = completed tn)
  /\ (forall i, length ts <= i -> invocations i log = 0).

(** At most one transition is running on each element. *)
Definition exclusive (ts : list transition) : Prop :=
  forall i j ti tj,
    ts !! i = Some ti -> ts !! j = Some tj ->
    ph ti = Animating -> ph tj = Animating -> grp ti = grp tj -> i = j.

(** No transition is running on the element of group [g]. *)
Definition quiet (g : group) (ts : list transition) : Prop :=
  forall j u, ts !! j = Some u -> grp u = g -> ph u <> Animating.

(** The store after some events in terms of the store before: unchanged,
    or a falsy value initialised to 0. *)
Definition keptOrInitialised (before after : option num) : Prop :=
  after = before \/ (truthyValue before = false /\ after = Some num0).

(** A transition that has started: it runs, has ended or has been
    interrupted. *)
Definition started (tn : transition) : Prop :=
  ph tn = Animating \/ ph tn = Ended \/ ph tn = Interrupted.

(** The bookkeeping invariant of a world. *)
Definition sound (w : world) : Prop :=
  accounted (transitions w) (completions w) /\ exclusive (transitions w).

(** [w'] comes from [w] by stopping transitions: no transition is added,
    none changes its element, one that runs in [w'] is untouched, and
    transition [i], if it is waiting to start, is untouched. *)
Definition calmer (i : nat) (w w' : world) : Prop :=
  length (transitions w') = length (transitions w)
  /\ (forall m u', transitions w' !! m = Some u' ->
        exists u, transitions w !! m = Some u /\ grp u' = grp u
                  /\ onComplete u' = onComplete u
                  /\ (ph u' = Animating -> u' = u)
                  /\ (ph u = Animating ->
                      ph u' = Animating \/ ph u' = Interrupted)
                  /\ (ph u = Interrupted -> ph u' = Interrupted)
                  /\ (ph u = Ended -> ph u' = Ended))
  /\ (forall u, transitions w !! i = Some u -> ph u = Scheduled ->
        transitions w' !! i = Some u)
  /\ deltaLastValue w' = deltaLastValue w
  /\ barWidth w' = barWidth w.

(** ** Axis adapter *)

(** JavaScript objects live in a heap: [mockAxis] receives references to
    [gd], to the gauge-axis options and to the range array, and objects
    reachable from them are shared, not copied. *)
Definition loc := nat.

Inductive val :=
| VUndefined
| VNum (n : num)
| VStr (s : string)
| VBool (b : bool)
| VRef (l : loc).

(** Reading the property [k] of the object at [l]; a missing property
    reads as [undefined]. *)
Definition getProp (hp : gmap loc (gmap string val)) (l : loc) (k : string)
  : val :=
  match hp !! l with
  | Some o => match o !! k with
              | Some v => v
              | None => VUndefined
              end
  | None => VUndefined
  end.

(** An object literal: a new object at a location not in use. *)
Definition alloc (o : gmap string val) (hp : gmap loc (gmap string val))
  : loc * gmap loc (gmap string val) :=
  let l := fresh (dom hp) in (l, <[l := o]> hp).

Section AxisAdapter.
Variable numToString : num -> string.
(** [handleAxisDefaults(containerIn, containerOut, coerce, options, layoutOut)]
    and [handleAxisPositionDefaults(containerIn, containerOut, coerce, options)]
    of the cartesian axis module, which is not part of the sources at hand;
    [coerce] is the closure over [containerIn] and [containerOut]. *)
Variable handleAxisDefaults :
  loc -> loc -> loc -> loc -> gmap loc (gmap string val)
  -> gmap loc (gmap string val).
Variable handleAxisPositionDefaults :
  loc -> loc -> loc -> gmap loc (gmap string val)
  -> gmap loc (gmap string val).

(** ToString, as applied by ['x' + opts._id]. *)
Definition toString (v : val) : string :=
  match v with
  | VUndefined => "undefined"
  | VNum n => numToString n
  | VStr s => s
  | VBool true => "true"
  | VBool false => "false"
  | VRef _ => "[object Object]"
  end.

(** The properties of the literal [axisIn]. *)
Definition axisInProps (hp : gmap loc (gmap string val)) (opts : loc)
           (zrange : val) : list (string * val) :=
  [ ("type", VStr "linear");
    ("ticks", VStr "outside");
    ("range", zrange);
    ("tickmode", getProp hp opts "tickmode");
    ("nticks", getProp hp opts "nticks");
    ("tick0", getProp hp opts "tick0");
    ("dtick", getProp hp opts "dtick");
    ("tickvals", getProp hp opts "tickvals");
    ("ticktext", getProp hp opts "ticktext");
    ("ticklen", getProp hp opts "ticklen");
    ("tickwidth", getProp hp opts "tickwidth");
    ("tickcolor", getProp hp opts "tickcolor");
    ("showticklabels", getProp hp opts "showticklabels");
    ("tickfont", getProp hp opts "tickfont");
    ("tickangle", getProp hp opts "tickangle");
    ("tickformat", getProp hp opts "tickformat");
    ("exponentformat", getProp hp opts "exponentformat");
    ("separatethousands", getProp hp opts "separatethousands");
    ("showexponent", getProp hp opts "showexponent");
    ("showtickprefix", getProp hp opts "showtickprefix");
    ("tickprefix", getProp hp opts "tickprefix");
    ("showticksuffix", getProp hp opts "showticksuffix");
    ("ticksuffix", getProp hp opts "ticksuffix");
    ("title", getProp hp opts "title");
    ("showline", VBool true);
    ("anchor", VStr "free");
    ("position", VNum num1) ].

(** [mockAxis(gd, opts, zrange)].  [None] stands for the TypeError raised
    when [gd._fullLayout] is not an object. *)
Definition mockAxis (gd opts : loc) (zrange : val)
           (hp : gmap loc (gmap string val))
  : option (loc * gmap loc (gmap string val)) :=
  match getProp hp gd "_fullLayout" with
  | VRef fullLayout =>
      let '(axisIn, hp1) :=
        alloc (list_to_map (axisInProps hp opts zrange)) hp in
      let '(axisOut, hp2) :=
        alloc (list_to_map
                 [ ("type", VStr "linear");
                   ("_id",
                    VStr (String.append "x"
                            (toString (getProp hp1 opts "_id")))) ])
              hp1 in
      let '(axisOptions, hp3) :=
        alloc (list_to_map
                 [ ("letter", VStr "x");
                   ("font", getProp hp2 fullLayout "font");
                   ("noHover", VBool true);
                   ("noTickson", VBool true) ])
              hp2 in
      let hp4 := handleAxisDefaults axisIn axisOut axisOptions fullLayout hp3 in
      let hp5 := handleAxisPositionDefaults axisIn axisOut axisOptions hp4 in
      Some (axisOut, hp5)
  | _ => None
  end.

End AxisAdapter.

(** A helper of the axis module keeps its writes to the containers it is
    handed: every other object that existed before the call is unchanged. *)
Definition writesOnly (ls : list loc)
           (hp hp' : gmap loc (gmap string val)) : Prop :=
  forall l o, ~ List.In l ls -> hp !! l = Some o -> hp' !! l = Some o.

(** ** Sample inputs *)

Module Sample.

Definition solid : lineOpts := {| line_color := "#444"; line_width := Fin 1 |}.

Definition step1 : arcData :=
  {| range := (Fin 0, Fin 50); color := "lightgray"; line := solid;
     height := Fin 1 |}.

Definition bar : arcData :=
  {| range := (Fin 0, Fin 0); color := "green"; line := solid;
     height := Fin 0.5 |}.

Definition gaugeOf (sh : shape) (thr : option num) : gaugeOpts :=
  {| gauge_shape := sh; bgcolor := "white"; bordercolor := "#444";
     borderwidth := Fin 1; gauge_value := bar; steps := [step1];
     threshold := {| threshold_value := thr; threshold_color := "red";
                     threshold_width := Fin 2; threshold_height := Fin 0.75 |} |}.

Definition deltaOf (pos : deltaPosition) (pct : bool) : deltaOpts :=
  {| showpercentage := pct;
     increasing := {| symbol := "+"; symbol_color := "green" |};
     decreasing := {| symbol := "-"; symbol_color := "red" |};
     delta_position := pos |}.

Definition traceOf (m : string) (lo hi : num) (g : gaugeOpts) : trace :=
  {| mode := m; tmin := lo; tmax := hi;
     title_text := "Speed"; title_align := AlignCenter;
     number_suffix := "km"; number_align := AlignCenter;
     delta := deltaOf PosBottom false; gauge := g |}.

(** An angular gauge over [0, 100] with a threshold at 80. *)
Definition angular : trace :=
  traceOf "bignumber+delta+gauge" (Fin 0) (Fin 100)
          (gaugeOf Angular (Some (Fin 80))).

(** A bullet gauge over [0, 100] with a threshold at 80. *)
Definition bullet : trace :=
  traceOf "bignumber+delta+gauge" (Fin 0) (Fin 100)
          (gaugeOf Bullet (Some (Fin 80))).

(** A gauge whose range has collapsed to the single value 5. *)
Definition degenerate : trace :=
  traceOf "gauge" (Fin 5) (Fin 5) (gaugeOf Angular None).

(** A gauge over [-10, 10] with its threshold at 0. *)
Definition zeroThreshold (sh : shape) : trace :=
  traceOf "gauge" (Fin (-10)) (Fin 10) (gaugeOf sh (Some (Fin 0))).

(** A big number with its delta, without a gauge. *)
Definition numberDelta : trace :=
  traceOf "bignumber+delta" (Fin 0) (Fin 100) (gaugeOf Angular None).

(** A delta next to an angular gauge, without the big number. *)
Definition deltaGauge : trace :=
  traceOf "delta+gauge" (Fin 0) (Fin 100) (gaugeOf Angular None).

Definition cn : constants :=
  {| cn_innerRadius := Fin 0.75; cn_bulletHeight := Fin 50;
     cn_bulletPadding := Fin 0.025; cn_bulletTitleSize := Fin 0.25 |}.

Definition size : boxSize :=
  {| w := Fin 400; h := Fin 300; l := Fin 0; r := Fin 0; t := Fin 0;
     b := Fin 0 |}.

(** A formatter that prints three characters. *)
Definition fmt (_ : num) : string := "100".

(** A linear axis transform of slope 3. *)
Definition c2p (v : num) : num := (Fin 3 * v)%num.

Definition point : calcPoint :=
  {| y := Fin 60; lastY := Fin 40; cd_delta := Fin 20;
     relativeDelta := Fin 0.5 |}.

(** A formatter for deltas. *)
Definition deltaFmt (_ : num) : string := "20".

Definition halfSecond : transitionOpts :=
  {| duration := Fin 500; easing := "cubic-in-out" |}.

Definition instant : transitionOpts :=
  {| duration := Fin 0; easing := "cubic-in-out" |}.

(** A later reading of the same trace. *)
Definition point2 : calcPoint :=
  {| y := Fin 90; lastY := Fin 60; cd_delta := Fin 30;
     relativeDelta := Fin 0.5 |}.

(** An animated render of the angular sample, whose delta transition then
    starts. *)
Definition firstRender : list event :=
  [Render (Some halfSecond) true angular point; Start 1].

(** The delta transition of [firstRender] once it runs. *)
Definition runningDelta : transition :=
  {| grp := DeltaText; ttrace := angular; datum := point;
     onComplete := Some 0; source := Fin 0; ph := Animating |}.

(** A frame half way through the delta transition, then a second animated
    render arriving before the transition has completed. *)
Definition superseding : list event :=
  [Tick 1 (Fin 0.5); Render (Some halfSecond) true angular point2].

(** The delta transition scheduled by the second render. *)
Definition pendingDelta : transition :=
  {| grp := DeltaText; ttrace := angular; datum := point2;
     onComplete := Some 1; source := NaN; ph := Scheduled |}.

(** The world after [firstRender], and after [superseding] on top of it. *)
Definition afterFirst : world := run fmt deltaFmt c2p firstRender initial.
Definition afterSecond : world := run fmt deltaFmt c2p superseding afterFirst.

(** A trivial stand-in for the axis helpers: each marks the output
    container. *)
Definition axisDefaults (containerIn containerOut options layoutOut : loc)
           (hp : gmap loc (gmap string val)) : gmap loc (gmap string val) :=
  alter (insert "visible" (VBool true)) containerOut hp.

Definition axisPositionDefaults (containerIn containerOut options : loc)
           (hp : gmap loc (gmap string val)) : gmap loc (gmap string val) :=
  alter (insert "anchor" (VStr "free")) containerOut hp.

Definition numToString (_ : num) : string := "0".

(** A heap with [gd] at 0, its layout at 1, the layout font at 2 and the
    gauge-axis options at 3. *)
Definition heap : gmap loc (gmap string val) :=
  {[ 0 := {[ "_fullLayout" := VRef 1 ]};
     1 := {[ "font" := VRef 2 ]};
     2 := {[ "family" := VStr "Open Sans" ]};
     3 := {[ "tickmode" := VStr "auto"; "nticks" := VNum (Fin 5) ]} ]}.

End Sample.


(** ** Further parts of the plot routine *)

(** [x >= y]; false as soon as one side is NaN. *)
Definition geb (x y : num) : bool :=
  match x, y with
  | NaN, _ | _, NaN => false
  | _, _ => negb (ltb x y)
  end.

(** [Math.cos], [Math.sin] and [Math.abs]. *)
Definition Math_cos (x : num) : num :=
  match x with
  | Fin a => Fin (cos a)
  | _ => NaN
  end.

Definition Math_sin (x : num) : num :=
  match x with
  | Fin a => Fin (sin a)
  | _ => NaN
  end.

Definition Math_abs (x : num) : num :=
  match x with
  | NaN => NaN
  | Fin a => Fin (Rabs a)
  | _ => PosInf
  end.

(** *** Domain size *)

Record domainRect := {
  dx0 : num; dx1 : num; dy0 : num; dy1 : num
}.

(** The object [size]: [fullLayout._size] with its box replaced by the
    part that [trace.domain] selects. *)
Definition domainSize (fullSize : boxSize) (domain : domainRect) : boxSize :=
  {| w := w fullSize * (dx1 domain - dx0 domain);
     h := h fullSize * (dy1 domain - dy0 domain);
     l := l fullSize + w fullSize * dx0 domain;
     r := r fullSize + w fullSize * (num1 - dx1 domain);
     t := t fullSize + h fullSize * (num1 - dy1 domain);
     b := b fullSize + h fullSize * dy0 domain |}%num.

(** *** The tspans of the number block *)

(** The table [anchor]. *)
Definition anchor (a : align) : string :=
  match a with
  | AlignLeft => "start"
  | AlignCenter => "middle"
  | AlignRight => "end"
  end.

Record tspanSpec := {
  text_anchor : string;
  alignment_baseline : string;
  class : string
}.

Definition numberSpec (tr : trace) : tspanSpec :=
  {| text_anchor := anchor (number_align tr);
     alignment_baseline := "central"; class := "number" |}.

Definition deltaSpec (tr : trace) : tspanSpec :=
  {| text_anchor := anchor (number_align tr);
     alignment_baseline := "central"; class := "delta" |}.

Definition isLeft (p : deltaPosition) : bool :=
  match p with PosLeft => true | _ => false end.

Definition isInline (p : deltaPosition) : bool :=
  match p with PosLeft | PosRight => true | _ => false end.

(** The array [data] bound to the tspans of [text.numbers]. *)
Definition numbersData (tr : trace) : list tspanSpec :=
  let data :=
    (if hasBigNumber tr then [numberSpec tr] else [])
    ++ (if hasDelta tr then [deltaSpec tr] else []) in
  if isLeft (delta_position (delta tr)) then List.rev data else data.

(** The [dx] attribute of the tspan at index [i]; [None] is [undefined]. *)
Definition tspanDx (tr : trace) (i : nat) : option num :=
  if (i =? 1) && isInline (delta_position (delta tr))
  then Some (Fin 10)
  else None.

(** [deltaFill(d)] *)
Definition deltaFill (tr : trace) (d : calcPoint) : string :=
  if geb (cd_delta d) num0 then symbol_color (increasing (delta tr))
  else symbol_color (decreasing (delta tr)).

(** *** The angular gauge *)

(** The settings of the [d3.svg.arc] generator that [arcPathGenerator]
    returns. *)
Record arcGenerator := {
  arc_innerRadius : num;
  arc_outerRadius : num;
  arc_startAngle : num
}.

Section AngularGauge.
Variable cn : constants.
Variable box : boxSize.              (* the outer variable [size] *)

Local Open Scope num_scope.

(** [arcPathGenerator(size)] *)
Definition arcPathGenerator (size : num) : arcGenerator :=
  {| arc_innerRadius :=
       (innerRadius cn box + radius box) / num2
       - size / num2 * (radius box - innerRadius cn box);
     arc_outerRadius :=
       (innerRadius cn box + radius box) / num2
       + size / num2 * (radius box - innerRadius cn box);
     arc_startAngle := - theta |}.

(** [_transFn(rad)], as the pair that [strTranslate] prints. *)
Definition _transFn (gaugePosition : num * num) (rad : num) : num * num :=
  (fst gaugePosition + radius box * Math_cos rad,
   snd gaugePosition - radius box * Math_sin rad).

(** [labelFns.anchorFn], on the angle [t2g(d)]. *)
Definition anchorFn (rad : num) : string :=
  let cos := Math_cos rad in
  if Math_abs cos <? Fin 0.1 then "middle"
  else if cos >? num0 then "start" else "end".

(** [labelFns.heightFn], on the angle [t2g(d)] and the height [h]. *)
Definition heightFn (rad : num) (h : num) : num :=
  - Fin 0.5 * (num1 + Math_sin rad) * h.

(** [labelFns.xFn], on the angle [t2g(d)]. *)
Definition xFn (labelStandoff : num) (rad : num) : num :=
  Math_cos rad * labelStandoff.

End AngularGauge.

(** [arcTween(arc, endAngle, newAngle)] at time [t]: the end angle given to
    the arc generator for that frame. *)
Definition arcTween (endAngle newAngle t : num) : num :=
  interpolateNumber endAngle newAngle t.

(** *** The older layout variant *)

Module Legacy.

Section Legacy.
Variable cn : constants.
Variable size : boxSize.

Local Open Scope num_scope.

Definition radius : num := min (w size / num2) (h size * Fin 0.65).

Definition innerRadius : num := cn_innerRadius cn * radius.

(** [valueToAngle(v)] *)
Definition valueToAngle (tr : trace) (v : num) : num :=
  let angle :=
    (v - tmin tr) / (tmax tr - tmin tr) * Math_PI - Math_PI / num2 in
  if angle <? - theta then - theta
  else if angle >? theta then theta
  else angle.

(** The line of [g.threshold] in the angular gauge. *)
Definition thresholdLine (tr : trace) : geometry :=
  let v := toNumber (threshold_value (threshold (gauge tr))) in
  LineSeg (Math_sin (valueToAngle tr v) * innerRadius)
          (Math_sin (valueToAngle tr v) * radius)
          (- Math_cos (valueToAngle tr v) * innerRadius)
          (- Math_cos (valueToAngle tr v) * radius).

End Legacy.

End Legacy.

(** ** The test runner configuration *)

Module Karma.
Import Stdlib.Strings.Ascii.

Definition SUFFIX : string := "_test.js".

Definition isComma (c : Ascii.ascii) : bool := Ascii.eqb c ","%char.

(** [s.split(',')] *)
Fixpoint split (s : string) : list string :=
  match s with
  | EmptyString => [EmptyString]
  | String c s' =>
      if isComma c then EmptyString :: split s'
      else match split s' with
           | hd :: tl => String c hd :: tl
           | [] => [String c EmptyString]
           end
  end.

(** [l.join(',')] *)
Fixpoint join (l : list string) : string :=
  match l with
  | [] => EmptyString
  | [x] => x
  | x :: rest => String.append x (String ","%char (join rest))
  end.

(** A command-line value: one string, or an array of strings when the
    option was given several times. *)
Inductive argValue :=
| One (s : string)
| Many (l : list string).

(** [merge(_)] *)
Definition merge (v : argValue) : list string :=
  List.fold_left (fun list p => list ++ split p)
                 (match v with One s => [s] | Many l => l end) [].

(** [glob(_)] *)
Definition glob (names : list string) : string :=
  match names with
  | [name] => String.append name SUFFIX
  | _ => String.append "{"
           (String.append (join names) (String.append "}" SUFFIX))
  end.

Record browserFlags := {
  Chrome : bool;
  Firefox : bool;
  IE11 : bool
}.

(** The list [browsers] after the four pushes. *)
Definition browsers (argv : browserFlags) : list string :=
  let browsers :=
    (if Chrome argv then ["_Chrome"] else [])
    ++ (if Firefox argv then ["_Firefox"] else [])
    ++ (if IE11 argv then ["IE"] else []) in
  match browsers with
  | [] => ["_Chrome"]
  | _ => browsers
  end.

(** A string without a comma. *)
Fixpoint commaFree (s : string) : bool :=
  match s with
  | EmptyString => true
  | String c s' => negb (isComma c) && commaFree s'
  end.

End Karma.

(** ** Auxiliary notions for statements *)

(** The anchor on the other side. *)
Definition mirrorAnchor (a : string) : string :=
  if String.eqb a "start" then "end"
  else if String.eqb a "end" then "start"
  else a.

(** The trace with another [number.align]. *)
Definition withNumberAlign (a : align) (tr : trace) : trace :=
  {| mode := mode tr; tmin := tmin tr; tmax := tmax tr;
     title_text := title_text tr; title_align := title_align tr;
     number_suffix := number_suffix tr; number_align := a;
     delta := delta tr; gauge := gauge tr |}.

(** The calcdata point with another value [y]. *)
Definition withY (v : num) (cd0 : calcPoint) : calcPoint :=
  {| y := v; lastY := lastY cd0; cd_delta := cd_delta cd0;
     relativeDelta := relativeDelta cd0 |}.

(** ** Counting completion calls *)

(** How many times the callback [c] has been called. *)
Definition callsOf (c : nat) (log : list (nat * nat)) : nat :=
  length (List.filter (fun p => snd p =? c) log).

(** The transition holds the callback [c] and has ended or been
    interrupted. *)
Definition finishedHolding (c : nat) (tn : transition) : bool :=
  match onComplete tn, ph tn with
  | Some c', Ended | Some c', Interrupted => c' =? c
  | _, _ => false
  end.

(** Each callback has been called once for each finished transition that
    holds it. *)
Definition tallied (w : world) : Prop :=
  forall c,
    callsOf c (completions w)
    = length (List.filter (finishedHolding c) (transitions w)).


(* ===================================================================== *)
(** * Part II: properties                                                 *)
(* ===================================================================== *)

(** ** Facts about [JSNum] on finite values *)

Section JSNumFacts.
Local Open Scope R_scope.

Lemma sgn_pos (r : R) : 0 < r -> sgn r = Gt.
Proof.
  intros H. unfold sgn.
  destruct (total_order_T r 0) as [[Hlt | Heq] | Hgt]; try reflexivity; lra.
Qed.

Lemma sgn_neg (r : R) : r < 0 -> sgn r = Lt.
Proof.
  intros H. unfold sgn.
  destruct (total_order_T r 0) as [[Hlt | Heq] | Hgt]; try reflexivity; lra.
Qed.

Lemma sgn_zero : sgn 0 = Eq.
Proof.
  unfold sgn.
  destruct (total_order_T 0 0) as [[Hlt | Heq] | Hgt]; try reflexivity; lra.
Qed.

Lemma div_fin (a b : R) : b <> 0 -> div (Fin a) (Fin b) = Fin (a / b).
Proof.
  intros Hb. unfold div, sgn.
  destruct (total_order_T b 0) as [[Hlt | Heq] | Hgt]; try reflexivity.
  contradiction.
Qed.

Lemma div_zero_pos (a : R) : 0 < a -> div (Fin a) (Fin 0) = PosInf.
Proof.
  intros Ha. unfold div. now rewrite sgn_zero, (sgn_pos a Ha).
Qed.

Lemma div_zero_neg (a : R) : a < 0 -> div (Fin a) (Fin 0) = NegInf.
Proof.
  intros Ha. unfold div. now rewrite sgn_zero, (sgn_neg a Ha).
Qed.

Lemma div_zero_zero : div (Fin 0) (Fin 0) = NaN.
Proof.
  unfold div. now rewrite sgn_zero.
Qed.

Lemma ltb_fin_true (a b : R) : a < b -> ltb (Fin a) (Fin b) = true.
Proof.
  intros H. unfold ltb. destruct (Rlt_dec a b); [reflexivity | contradiction].
Qed.

Lemma ltb_fin_false (a b : R) : b <= a -> ltb (Fin a) (Fin b) = false.
Proof.
  intros H. unfold ltb. destruct (Rlt_dec a b); [lra | reflexivity].
Qed.

Lemma theta_fin : theta = Fin (PI / 2).
Proof.
  unfold theta, Math_PI, num2. apply div_fin. lra.
Qed.

End JSNumFacts.

Section JSNumMinMax.
Local Open Scope R_scope.

Lemma min_fin (a b : R) : min (Fin a) (Fin b) = Fin (Rmin a b).
Proof.
  unfold min, ltb, Rmin.
  destruct (Rlt_dec b a), (Rle_dec a b); try reflexivity; lra.
Qed.

Lemma max_fin (a b : R) : max (Fin a) (Fin b) = Fin (Rmax a b).
Proof.
  unfold max, ltb, Rmax.
  destruct (Rlt_dec a b), (Rle_dec a b); try reflexivity; try lra.
  f_equal; lra.
Qed.

Lemma add_fin (a b : R) : add (Fin a) (Fin b) = Fin (a + b).
Proof. reflexivity. Qed.

Lemma sub_fin (a b : R) : sub (Fin a) (Fin b) = Fin (a - b).
Proof. reflexivity. Qed.

Lemma mul_fin (a b : R) : mul (Fin a) (Fin b) = Fin (a * b).
Proof. reflexivity. Qed.

Lemma truthy_fin (a : R) : a <> 0 -> truthy (Fin a) = true.
Proof.
  intros Ha. unfold truthy. destruct (Req_dec_T a 0); [contradiction | reflexivity].
Qed.

End JSNumMinMax.

(** Normalising a [JSNum] expression over finite operands. *)
Ltac num_norm :=
  repeat first
    [ rewrite add_fin | rewrite sub_fin | rewrite mul_fin
    | rewrite min_fin | rewrite max_fin
    | rewrite div_fin by lra ].

(** ** Value mapper *)

Section ValueMapperFacts.
Local Open Scope R_scope.

Lemma valueToAngle_fin (tr : trace) (lo hi v : R) :
  tmin tr = Fin lo -> tmax tr = Fin hi -> lo < hi ->
  valueToAngle tr (Fin v) = Fin (clampAngle ((v - lo) / (hi - lo) * PI - PI / 2)).
Proof.
  intros Hlo Hhi Hlt. unfold valueToAngle, clampAngle.
  rewrite Hlo, Hhi, theta_fin. cbn [sub neg].
  rewrite div_fin by lra. cbn [mul Math_PI sub].
  unfold gtb, ltb.
  destruct (Rlt_dec _ (- (PI / 2))); [reflexivity |].
  destruct (Rlt_dec (PI / 2) _); reflexivity.
Qed.

Lemma angle_slope (lo hi v : R) :
  lo < hi ->
  (v - lo) / (hi - lo) * PI - PI / 2 = (v - lo) * (PI / (hi - lo)) - PI / 2.
Proof.
  intros H. field. lra.
Qed.

Lemma slope_pos (lo hi : R) : lo < hi -> 0 < PI / (hi - lo).
Proof.
  intros H. apply Rdiv_lt_0_compat; [apply PI_RGT_0 | lra].
Qed.

Lemma clampAngle_bounds (x : R) : - (PI / 2) <= clampAngle x <= PI / 2.
Proof.
  pose proof PI_RGT_0. unfold clampAngle.
  destruct (Rlt_dec x (- (PI / 2))); [lra |].
  destruct (Rlt_dec (PI / 2) x); lra.
Qed.

Lemma clampAngle_mono (x x' : R) : x <= x' -> clampAngle x <= clampAngle x'.
Proof.
  pose proof PI_RGT_0. intros Hx. unfold clampAngle.
  destruct (Rlt_dec x (- (PI / 2))), (Rlt_dec x' (- (PI / 2)));
    destruct (Rlt_dec (PI / 2) x), (Rlt_dec (PI / 2) x'); lra.
Qed.


Lemma valueToAngle_zero_span (tr : trace) (m : R) :
  tmin tr = Fin m -> tmax tr = Fin m ->
  forall v : R,
    (m < v -> valueToAngle tr (Fin v) = Fin (PI / 2)) /\
    (v < m -> valueToAngle tr (Fin v) = Fin (- (PI / 2))) /\
    (v = m -> valueToAngle tr (Fin v) = NaN).
Proof.
  intros Hlo Hhi v. pose proof PI_RGT_0 as Hpi.
  unfold valueToAngle. rewrite Hlo, Hhi, theta_fin. cbn [sub neg].
  replace (m - m) with 0 by lra.
  repeat split; intros Hv.
  - rewrite div_zero_pos by lra. cbn. unfold inf_times.
    rewrite (sgn_pos PI Hpi). reflexivity.
  - rewrite div_zero_neg by lra. cbn. unfold inf_times.
    rewrite (sgn_pos PI Hpi). reflexivity.
  - subst v. replace (m - m) with 0 by lra.
    rewrite div_zero_zero. reflexivity.
Qed.





End ValueMapperFacts.

(** ** Layout planner: font sizes *)

Section LayoutFacts.
Variable cn : constants.
Variable fmt : num -> string.
Variable size : boxSize.

Lemma planLayout_bignumberFontSize (tr : trace) :
  bignumberFontSize (planLayout cn fmt tr size)
  = bignumberFontSize (layoutSizes cn fmt tr size).
Proof.
  unfold planLayout.
  destruct (hasDelta tr && hasBigNumber tr); [| reflexivity].
  destruct (delta_position (delta tr)); reflexivity.
Qed.

Lemma planLayout_deltaFontSize (tr : trace) :
  deltaFontSize (planLayout cn fmt tr size)
  = deltaFontSize (layoutSizes cn fmt tr size).
Proof.
  unfold planLayout.
  destruct (hasDelta tr && hasBigNumber tr); [| reflexivity].
  destruct (delta_position (delta tr)); reflexivity.
Qed.

(** Amended C8. Whenever the delta is shown its font size is a fixed
    fraction of the number font size, chosen by the mode: without a gauge
    0.5 next to a big number and the number font size itself otherwise; with
    an angular gauge 0.35 next to a big number; with a bullet gauge 0.5 next
    to a big number; with either gauge and no big number 0.75. *)
Theorem deltaFontSize_fraction (tr : trace) :
  hasDelta tr = true ->
  deltaFontSize (planLayout cn fmt tr size)
  = let bfs := bignumberFontSize (planLayout cn fmt tr size) in
    match hasGauge tr, hasBigNumber tr, gauge_shape (gauge tr) with
    | false, true, _ => Fin 0.5 * bfs
    | false, false, _ => bfs
    | true, true, Angular => Fin 0.35 * bfs
    | true, true, Bullet => Fin 0.5 * bfs
    | true, false, _ => Fin 0.75 * bfs
    end%num.
Proof.
  intros _. cbv zeta.
  rewrite planLayout_deltaFontSize, planLayout_bignumberFontSize.
  unfold layoutSizes, layoutNoGauge.
  destruct (hasGauge tr), (hasBigNumber tr), (gauge_shape (gauge tr));
    reflexivity.
Qed.

End LayoutFacts.

(** ** Fit-to-box *)

Section FitFacts.
Local Open Scope R_scope.

Lemma fitTextInside_fin (W H bw bh : R) :
  0 < bw -> 0 < bh ->
  fitTextInside {| bb_width := Fin bw; bb_height := Fin bh |} (Fin W) (Fin H)
  = Fin (Rmin (W / bw) (H / bh)).
Proof.
  intros Hw Hh. unfold fitTextInside. cbn [bb_width bb_height].
  rewrite !div_fin by lra. apply min_fin.
Qed.

(** C5. For a measured box of positive width and height the scale applied
    to the number/delta block is [min(maxWidth/boxWidth, maxHeight/boxHeight)]
    capped at 1; it is at most 1, and it is exactly 1 when the box matches
    the allotted region. *)
Theorem fit_scale_capped (L : layout) (W H bw bh : R) :
  numbersMaxWidth L = Fin W -> numbersMaxHeight L = Fin H ->
  0 < bw -> 0 < bh ->
  exists s : R,
    appliedScale
      (numbersTransform L {| bb_width := Fin bw; bb_height := Fin bh |})
    = Fin s /\
    s = Rmin (Rmin (W / bw) (H / bh)) 1 /\
    s <= 1 /\
    (W = bw -> H = bh -> s = 1).
Proof.
  intros HW HH Hbw Hbh.
  exists (Rmin (Rmin (W / bw) (H / bh)) 1).
  split; [| split; [reflexivity | split; [apply Rmin_r |]]].
  - unfold appliedScale, numbersTransform. cbn [scale].
    rewrite HW, HH, fitTextInside_fin by assumption.
    unfold num1, ltb. set (m := Rmin (W / bw) (H / bh)).
    unfold Rmin at 1.
    destruct (Rlt_dec m 1), (Rle_dec m 1); try reflexivity; try lra.
    f_equal. lra.
  - intros -> ->.
    replace (bw / bw) with 1 by (field; lra).
    replace (bh / bh) with 1 by (field; lra).
    rewrite (Rmin_left 1 1) by lra. apply Rmin_left. lra.
Qed.

End FitFacts.

(** ** Gauge composition *)

Section GaugeFacts.
Variable cn : constants.
Variable size : boxSize.
Variable c2p : num -> num.
Variable tr : trace.
Variable cd0 : calcPoint.

Lemma zorder_app (xs ys : list node) : zorder (xs ++ ys) = zorder xs ++ zorder ys.
Proof. apply List.map_app. Qed.

Lemma zorder_steps (class : string) (mk : string -> part -> arcData -> node) :
  (forall c p d, label (mk c p d) = p) ->
  forall ss : list arcData,
    zorder (List.map (fun pa => mk class (fst pa) (snd pa))
                     (List.map (fun s => (StepRange s, s)) ss))
    = List.map StepRange ss.
Proof.
  intros Hmk ss. unfold zorder. rewrite !List.map_map.
  apply List.map_ext. intros s. cbn. apply Hmk.
Qed.

Lemma zorder_angularGauge :
  zorder (angularGauge tr cd0)
  = [Background] ++ List.map StepRange (steps (gauge tr))
    ++ thresholdPart tr ++ [ValueShape] ++ [Outline].
Proof.
  unfold angularGauge, arcs, thresholdPart.
  destruct (truthyValue _);
    rewrite !zorder_app, ?List.map_app, ?zorder_app;
    rewrite (zorder_steps "targetArc" (arcNode tr)) by reflexivity;
    cbn; rewrite <- ?List.app_assoc; reflexivity.
Qed.

Lemma zorder_bulletGauge :
  zorder (bulletGauge cn size c2p tr cd0)
  = [Background] ++ List.map StepRange (steps (gauge tr))
    ++ [ValueShape] ++ thresholdPart tr ++ [Outline].
Proof.
  unfold bulletGauge, thresholdData, thresholdPart.
  rewrite !zorder_app, ?List.map_app, ?zorder_app.
  rewrite (zorder_steps "targetBullet" (bulletRect cn size c2p)) by reflexivity.
  destruct (truthyValue _); reflexivity.
Qed.


Lemma threshold_not_step (ss : list arcData) :
  ~ List.In ThresholdMarker (List.map StepRange ss).
Proof.
  intros Hin. apply List.in_map_iff in Hin as [s [Hs _]]. discriminate Hs.
Qed.

Lemma falsy_values (v : option num) :
  v = None \/ v = Some NaN \/ v = Some (Fin 0) -> truthyValue v = false.
Proof.
  intros [-> | [-> | ->]]; cbn; try reflexivity.
  destruct (Req_dec_T 0 0); [reflexivity | contradiction].
Qed.

(** C10. A threshold whose configured value is [undefined], [NaN] or 0 is
    not drawn: the angular arc list holds no threshold arc, the bullet
    threshold join has an empty data set, and neither gauge shows a
    threshold marker. *)
Theorem falsy_threshold_not_drawn :
  threshold_value (threshold (gauge tr)) = None
  \/ threshold_value (threshold (gauge tr)) = Some NaN
  \/ threshold_value (threshold (gauge tr)) = Some (Fin 0) ->
  arcs tr = [(Background, gaugeBg tr)]
            ++ List.map (fun s => (StepRange s, s)) (steps (gauge tr))
  /\ thresholdData cn size c2p tr = []
  /\ ~ List.In ThresholdMarker (zorder (angularGauge tr cd0))
  /\ ~ List.In ThresholdMarker (zorder (bulletGauge cn size c2p tr cd0)).
Proof.
  intros Hv. apply falsy_values in Hv.
  pose proof (threshold_not_step (steps (gauge tr))) as Hsteps.
  repeat split.
  - unfold arcs. now rewrite Hv.
  - unfold thresholdData. now rewrite Hv.
  - rewrite zorder_angularGauge. unfold thresholdPart. rewrite Hv.
    cbn. intros [H | H]; [discriminate |].
    apply List.in_app_or in H as [H | H]; [now apply Hsteps |].
    cbn in H. intuition discriminate.
  - rewrite zorder_bulletGauge. unfold thresholdPart. rewrite Hv.
    cbn. intros [H | H]; [discriminate |].
    apply List.in_app_or in H as [H | H]; [now apply Hsteps |].
    cbn in H. intuition discriminate.
Qed.

End GaugeFacts.

(** ** Transition orchestrator *)

Section LogFacts.

Lemma invocations_app (i : nat) (l1 l2 : list (nat * nat)) :
  invocations i (l1 ++ l2) = invocations i l1 + invocations i l2.
Proof.
  unfold invocations. now rewrite List.filter_app, List.length_app.
Qed.

Lemma invocations_one (i j c : nat) :
  invocations i [(j, c)] = if j =? i then 1 else 0.
Proof.
  unfold invocations. cbn. destruct (j =? i); reflexivity.
Qed.

(** The log entry a handler of transition [i] appends. *)
Lemma invocations_entry (i j : nat) (tn : transition) :
  invocations i (match onComplete tn with
                 | Some c => [(j, c)]
                 | None => []
                 end)
  = match onComplete tn with
    | Some _ => if j =? i then 1 else 0
    | None => 0
    end.
Proof.
  destruct (onComplete tn); [apply invocations_one | reflexivity].
Qed.

Lemma completed_set_phase_done (tn : transition) (p : phase) :
  p = Ended \/ p = Interrupted ->
  completed (set_phase p tn)
  = match onComplete tn with Some _ => 1 | None => 0 end.
Proof.
  unfold completed. intros [-> | ->]; cbn; destruct (onComplete tn); reflexivity.
Qed.

Lemma completed_running (tn : transition) :
  ph tn = Animating \/ ph tn = Scheduled \/ ph tn = Cancelled ->
  completed tn = 0.
Proof.
  unfold completed. intros [-> | [-> | ->]]; destruct (onComplete tn); reflexivity.
Qed.

Lemma accounted_retire (ts : list transition) (log : list (nat * nat))
      (i : nat) (tn : transition) (p : phase) :
  accounted ts log -> ts !! i = Some tn -> ph tn = Animating ->
  p = Ended \/ p = Interrupted ->
  accounted (<[i := set_phase p tn]> ts)
            (log ++ match onComplete tn with
                    | Some c => [(i, c)]
                    | None => []
                    end).
Proof.
  intros [Hin Hout] Hi Hph Hp. split.
  - intros j tn' Hj. rewrite invocations_app, invocations_entry.
    apply list_lookup_insert_Some in Hj as [(<- & <- & _) | (Hne & Hj)].
    + rewrite (Hin _ _ Hi), (completed_running tn) by auto.
      rewrite completed_set_phase_done by assumption.
      rewrite Nat.eqb_refl. reflexivity.
    + rewrite (Hin _ _ Hj).
      destruct (onComplete tn); [| lia].
      destruct (Nat.eqb_spec i j); [contradiction | lia].
  - intros j Hj. rewrite length_insert in Hj.
    rewrite invocations_app, invocations_entry, (Hout _ Hj).
    apply lookup_lt_Some in Hi.
    destruct (onComplete tn); [| reflexivity].
    destruct (Nat.eqb_spec i j); [lia | reflexivity].
Qed.

Lemma accounted_replace (ts : list transition) (log : list (nat * nat))
      (i : nat) (tn tn' : transition) :
  accounted ts log -> ts !! i = Some tn -> completed tn' = completed tn ->
  accounted (<[i := tn']> ts) log.
Proof.
  intros [Hin Hout] Hi Hc. split.
  - intros j u Hj.
    apply list_lookup_insert_Some in Hj as [(<- & <- & _) | (Hne & Hj)].
    + rewrite Hc. now apply Hin.
    + now apply Hin.
  - intros j Hj. rewrite length_insert in Hj. now apply Hout.
Qed.

Lemma accounted_snoc (ts : list transition) (log : list (nat * nat))
      (tn : transition) :
  accounted ts log -> completed tn = 0 -> accounted (ts ++ [tn]) log.
Proof.
  intros [Hin Hout] Hc. split.
  - intros j u Hj.
    apply lookup_snoc_Some in Hj as [[_ Hj] | [-> <-]].
    + now apply Hin.
    + rewrite Hc. apply Hout. lia.
  - intros j Hj. rewrite length_app in Hj. cbn in Hj. apply Hout. lia.
Qed.

Lemma exclusive_replace (ts : list transition) (i : nat)
      (tn tn' : transition) :
  exclusive ts -> ts !! i = Some tn -> grp tn' = grp tn ->
  (ph tn' = Animating -> ph tn = Animating) ->
  exclusive (<[i := tn']> ts).
Proof.
  intros Hex Hi Hg Hph a c ta tc Ha Hc Hpa Hpc Hgrp.
  apply list_lookup_insert_Some in Ha as [(<- & <- & _) | (Hna & Ha)];
    apply list_lookup_insert_Some in Hc as [(<- & <- & _) | (Hnc & Hc)].
  - reflexivity.
  - apply (Hex _ _ _ _ Hi Hc); auto. congruence.
  - apply (Hex _ _ _ _ Ha Hi); auto. congruence.
  - now apply (Hex _ _ _ _ Ha Hc).
Qed.

Lemma exclusive_snoc (ts : list transition) (tn : transition) :
  exclusive ts -> ph tn <> Animating -> exclusive (ts ++ [tn]).
Proof.
  intros Hex Hph a c ta tc Ha Hc Hpa Hpc Hgrp.
  apply lookup_snoc_Some in Ha as [[_ Ha] | [-> <-]];
    apply lookup_snoc_Some in Hc as [[_ Hc] | [-> <-]];
    try contradiction.
  now apply (Hex _ _ _ _ Ha Hc).
Qed.

Lemma exclusive_start (ts : list transition) (i : nat)
      (tn tn' : transition) :
  exclusive ts -> quiet (grp tn') ts -> ts !! i = Some tn ->
  exclusive (<[i := tn']> ts).
Proof.
  intros Hex Hq Hi a c ta tc Ha Hc Hpa Hpc Hgrp.
  apply list_lookup_insert_Some in Ha as [(<- & <- & _) | (Hna & Ha)];
    apply list_lookup_insert_Some in Hc as [(<- & <- & _) | (Hnc & Hc)].
  - reflexivity.
  - exfalso. apply (Hq _ _ Hc); auto.
  - exfalso. apply (Hq _ _ Ha); auto.
  - now apply (Hex _ _ _ _ Ha Hc).
Qed.

End LogFacts.

Section StoppingFacts.

Lemma callOnComplete_completions (i : nat) (tn : transition) (w : world) :
  completions (callOnComplete i tn w)
  = completions w ++ match onComplete tn with
                     | Some c => [(i, c)]
                     | None => []
                     end.
Proof.
  unfold callOnComplete. destruct (onComplete tn); cbn; [reflexivity |].
  now rewrite List.app_nil_r.
Qed.

Lemma callOnComplete_frame (i : nat) (tn : transition) (w : world) :
  transitions (callOnComplete i tn w) = transitions w
  /\ deltaLastValue (callOnComplete i tn w) = deltaLastValue w
  /\ barWidth (callOnComplete i tn w) = barWidth w
  /\ callbacks (callOnComplete i tn w) = callbacks w.
Proof.
  unfold callOnComplete. destruct (onComplete tn); cbn; auto.
Qed.

Lemma set_phaseAt_lookup (i : nat) (p : phase) (w : world) (tn : transition) :
  transitions w !! i = Some tn ->
  set_phaseAt i p w
  = set_transitions (<[i := set_phase p tn]> (transitions w)) w.
Proof.
  intros Hi. unfold set_phaseAt. now rewrite Hi.
Qed.

(** The two outcomes of [interruptAt]. *)
Lemma interruptAt_cases (i : nat) (w : world) :
  interruptAt i w = w
  \/ exists tn,
      transitions w !! i = Some tn /\ ph tn = Animating
      /\ transitions (interruptAt i w)
         = <[i := set_phase Interrupted tn]> (transitions w)
      /\ completions (interruptAt i w)
         = completions w ++ match onComplete tn with
                            | Some c => [(i, c)]
                            | None => []
                            end
      /\ deltaLastValue (interruptAt i w) = deltaLastValue w
      /\ barWidth (interruptAt i w) = barWidth w.
Proof.
  unfold interruptAt.
  destruct (transitions w !! i) as [tn |] eqn:Hi; [| now left].
  destruct (ph tn) eqn:Hph; try now left.
  right. exists tn. unfold onInterrupt.
  rewrite (set_phaseAt_lookup i Interrupted w tn Hi).
  rewrite callOnComplete_completions.
  destruct (callOnComplete_frame i tn
              (set_transitions (<[i := set_phase Interrupted tn]> (transitions w)) w))
    as (-> & -> & -> & _).
  cbn. repeat split; auto.
Qed.

(** The two outcomes of [cancelAt]. *)
Lemma cancelAt_cases (i : nat) (w : world) :
  cancelAt i w = w
  \/ exists tn,
      transitions w !! i = Some tn /\ ph tn = Scheduled
      /\ cancelAt i w
         = set_transitions (<[i := set_phase Cancelled tn]> (transitions w)) w.
Proof.
  unfold cancelAt.
  destruct (transitions w !! i) as [tn |] eqn:Hi; [| now left].
  destruct (ph tn) eqn:Hph; try now left.
  right. exists tn. now rewrite (set_phaseAt_lookup i Cancelled w tn Hi).
Qed.

Lemma interruptAt_sound (i : nat) (w : world) :
  sound w -> sound (interruptAt i w).
Proof.
  intros [Hacc Hex].
  destruct (interruptAt_cases i w) as [-> | (tn & Hi & Hph & Hts & Hlog & _)];
    [now split |].
  split.
  - rewrite Hts, Hlog. apply accounted_retire; auto.
  - rewrite Hts. apply (exclusive_replace _ _ tn); auto; discriminate.
Qed.

Lemma cancelAt_sound (i : nat) (w : world) :
  sound w -> sound (cancelAt i w).
Proof.
  intros [Hacc Hex].
  destruct (cancelAt_cases i w) as [-> | (tn & Hi & Hph & ->)]; [now split |].
  split; cbn.
  - apply (accounted_replace _ _ _ tn); auto.
    rewrite (completed_running tn) by auto.
    apply completed_running. cbn. auto.
  - apply (exclusive_replace _ _ tn); auto; discriminate.
Qed.

Lemma calmer_refl (i : nat) (w : world) : calmer i w w.
Proof.
  repeat split; auto. intros m u Hm. exists u. repeat split; auto.
Qed.

Lemma calmer_trans (i : nat) (w1 w2 w3 : world) :
  calmer i w1 w2 -> calmer i w2 w3 -> calmer i w1 w3.
Proof.
  intros (Hl1 & Hb1 & Hk1 & Hs1 & Hw1) (Hl2 & Hb2 & Hk2 & Hs2 & Hw2).
  repeat split; try congruence.
  - intros m u3 Hm.
    destruct (Hb2 _ _ Hm) as (u2 & Hm2 & Hg2 & Hc2 & Hp2 & Ha2 & Hi2 & He2).
    destruct (Hb1 _ _ Hm2) as (u1 & Hm1 & Hg1 & Hc1 & Hp1 & Ha1 & Hi1 & He1).
    exists u1. split; [assumption |]. split; [congruence |].
    split; [congruence |]. split; [| split; [| split]].
    + intros Hph. specialize (Hp2 Hph). subst u3. auto.
    + intros Hph. destruct (Ha1 Hph) as [H | H]; auto.
    + auto.
    + auto.
  - intros u Hu Hph. apply Hk2; auto.
Qed.

Lemma calmer_interruptAt (i j : nat) (w : world) : calmer i w (interruptAt j w).
Proof.
  destruct (interruptAt_cases j w)
    as [-> | (tn & Hj & Hph & Hts & _ & Hst & Hbw)]; [apply calmer_refl |].
  repeat split; auto.
  - rewrite Hts. apply length_insert.
  - intros m u' Hm. rewrite Hts in Hm.
    apply list_lookup_insert_Some in Hm as [(<- & <- & _) | (Hne & Hm)].
    + exists tn. repeat split; auto; try discriminate; congruence.
    + exists u'. repeat split; auto.
  - intros u Hu HphS. rewrite Hts.
    destruct (decide (j = i)) as [-> | Hne]; [congruence |].
    now rewrite list_lookup_insert_ne.
Qed.

Lemma calmer_cancelAt (i j : nat) (w : world) :
  j < i -> calmer i w (cancelAt j w).
Proof.
  intros Hlt.
  destruct (cancelAt_cases j w) as [-> | (tn & Hj & Hph & ->)];
    [apply calmer_refl |].
  repeat split; cbn; auto.
  - apply length_insert.
  - intros m u' Hm.
    apply list_lookup_insert_Some in Hm as [(<- & <- & _) | (Hne & Hm)].
    + exists tn. repeat split; auto; try discriminate; congruence.
    + exists u'. repeat split; auto.
  - intros u Hu HphS. rewrite list_lookup_insert_ne by lia. assumption.
Qed.

Lemma supersedeAt_sound (g : group) (i j : nat) (w : world) :
  sound w -> sound (supersedeAt g i w j).
Proof.
  intros Hs. unfold supersedeAt.
  destruct (transitions w !! j); [| assumption].
  destruct (group_eqb _ g); [| assumption].
  apply interruptAt_sound. destruct (j <? i); [apply cancelAt_sound |]; assumption.
Qed.

Lemma calmer_supersedeAt (g : group) (i j : nat) (w : world) :
  calmer i w (supersedeAt g i w j).
Proof.
  unfold supersedeAt.
  destruct (transitions w !! j); [| apply calmer_refl].
  destruct (group_eqb _ g); [| apply calmer_refl].
  destruct (Nat.ltb_spec j i) as [Hlt | Hge].
  - apply (calmer_trans i w (cancelAt j w));
      [apply calmer_cancelAt; assumption | apply calmer_interruptAt].
  - apply calmer_interruptAt.
Qed.

Lemma group_eqb_eq (g1 g2 : group) : group_eqb g1 g2 = true <-> g1 = g2.
Proof.
  destruct g1, g2; cbn; split; intros H; try reflexivity; discriminate.
Qed.

(** After [supersedeAt] at [j], transition [j] does not run on [g]. *)
Lemma supersedeAt_quiet_at (g : group) (i j : nat) (w : world) (u : transition) :
  transitions (supersedeAt g i w j) !! j = Some u -> grp u = g ->
  ph u <> Animating.
Proof.
  unfold supersedeAt. intros Hu Hg Hph.
  destruct (transitions w !! j) as [u0 |] eqn:Hj; [| congruence].
  destruct (group_eqb (grp u0) g) eqn:Hgrp.
  - set (w1 := if j <? i then cancelAt j w else w) in *.
    destruct (interruptAt_cases j w1)
      as [Heq | (tn & Hj1 & Hph1 & Hts & _)].
    + rewrite Heq in Hu. unfold interruptAt in Heq.
      rewrite Hu, Hph in Heq.
      pose proof (f_equal (fun w => transitions w !! j) Heq) as Hbad.
      cbn beta in Hbad. unfold onInterrupt in Hbad.
      destruct (callOnComplete_frame j u (set_phaseAt j Interrupted w1))
        as (Hfr & _).
      rewrite Hfr, (set_phaseAt_lookup j Interrupted w1 u Hu) in Hbad.
      cbn in Hbad. rewrite list_lookup_insert_eq in Hbad
        by (eapply lookup_lt_Some; eassumption).
      rewrite Hu in Hbad. injection Hbad as Hbad.
      rewrite <- Hbad in Hph. discriminate.
    + rewrite Hts in Hu.
      rewrite list_lookup_insert_eq in Hu
        by (eapply lookup_lt_Some; eassumption).
      injection Hu as <-. discriminate.
  - assert (u = u0) by congruence. subst u0.
    apply group_eqb_eq in Hg. congruence.
Qed.

Lemma fold_supersedeAt_sound (g : group) (i : nat) (js : list nat) (w : world) :
  sound w -> sound (List.fold_left (supersedeAt g i) js w).
Proof.
  revert w. induction js as [| j js IH]; intros w Hs; cbn; [assumption |].
  apply IH, supersedeAt_sound, Hs.
Qed.

Lemma fold_supersedeAt_calmer (g : group) (i : nat) (js : list nat) (w : world) :
  calmer i w (List.fold_left (supersedeAt g i) js w).
Proof.
  revert w. induction js as [| j js IH]; intros w; cbn; [apply calmer_refl |].
  eapply calmer_trans; [apply calmer_supersedeAt | apply IH].
Qed.

Lemma fold_supersedeAt_quiet (g : group) (i : nat) (js : list nat) (w : world) :
  forall j u, List.In j js ->
    transitions (List.fold_left (supersedeAt g i) js w) !! j = Some u ->
    grp u = g -> ph u <> Animating.
Proof.
  revert w. induction js as [| j0 js IH]; intros w j u Hin Hu Hg; cbn in *;
    [contradiction |].
  destruct (List.in_dec Nat.eq_dec j js) as [Hjs | Hjs];
    [now apply (IH (supersedeAt g i w j0) j u) |].
  destruct Hin as [-> | Hin]; [| contradiction].
  intros Hph.
  destruct (fold_supersedeAt_calmer g i js (supersedeAt g i w j))
    as (_ & Hb & _).
  destruct (Hb _ _ Hu) as (u1 & Hu1 & Hg1 & _ & Hp1 & _).
  specialize (Hp1 Hph). subst u1.
  now apply (supersedeAt_quiet_at g i j w u).
Qed.

Lemma supersede_sound (g : group) (i : nat) (w : world) :
  sound w -> sound (supersede g i w).
Proof. apply fold_supersedeAt_sound. Qed.

Lemma supersede_calmer (g : group) (i : nat) (w : world) :
  calmer i w (supersede g i w).
Proof. apply fold_supersedeAt_calmer. Qed.

Lemma supersede_quiet (g : group) (i : nat) (w : world) :
  quiet g (transitions (supersede g i w)).
Proof.
  intros j u Hu Hg.
  apply (fold_supersedeAt_quiet g i (List.seq 0 (length (transitions w))) w j u);
    auto.
  apply List.in_seq.
  destruct (supersede_calmer g i w) as (Hlen & _).
  apply lookup_lt_Some in Hu. lia.
Qed.

End StoppingFacts.

Section OrchestratorFacts.
Variable fmt : num -> string.
Variable deltaFmt : num -> string.
Variable c2p : num -> num.

Lemma applyTween_frame (tn : transition) (e : num) (w : world) :
  transitions (applyTween fmt deltaFmt c2p tn e w) = transitions w
  /\ completions (applyTween fmt deltaFmt c2p tn e w) = completions w
  /\ deltaLastValue (applyTween fmt deltaFmt c2p tn e w) = deltaLastValue w
  /\ callbacks (applyTween fmt deltaFmt c2p tn e w) = callbacks w.
Proof.
  unfold applyTween.
  destruct (grp tn);
    [destruct (numberText w) | destruct (deltaText w)
     | destruct (arcEnd w) | destruct (barWidth w)];
    cbn; auto.
Qed.

Lemma sound_ext (w w' : world) :
  transitions w' = transitions w -> completions w' = completions w ->
  sound w -> sound w'.
Proof.
  unfold sound. intros -> ->. auto.
Qed.

Lemma schedule_frame (present : bool) (g : group) (tr : trace)
      (cd0 : calcPoint) (cb : option nat) (w : world) :
  deltaLastValue (schedule present g tr cd0 cb w) = deltaLastValue w
  /\ completions (schedule present g tr cd0 cb w) = completions w
  /\ callbacks (schedule present g tr cd0 cb w) = callbacks w
  /\ numberText (schedule present g tr cd0 cb w) = numberText w
  /\ deltaText (schedule present g tr cd0 cb w) = deltaText w
  /\ arcEnd (schedule present g tr cd0 cb w) = arcEnd w
  /\ barWidth (schedule present g tr cd0 cb w) = barWidth w.
Proof.
  unfold schedule. destruct present; cbn; repeat split; reflexivity.
Qed.

Lemma schedule_sound (present : bool) (g : group) (tr : trace)
      (cd0 : calcPoint) (cb : option nat) (w : world) :
  sound w -> sound (schedule present g tr cd0 cb w).
Proof.
  intros [Hacc Hex]. unfold schedule. destruct present; [| now split].
  split; cbn.
  - apply accounted_snoc; [assumption |].
    apply completed_running. cbn. auto.
  - apply exclusive_snoc; [assumption | discriminate].
Qed.

Lemma plot_sound (o : option transitionOpts) (mk : bool) (tr : trace)
      (cd0 : calcPoint) (w : world) :
  sound w -> sound (plot fmt deltaFmt c2p o mk tr cd0 w).
Proof.
  intros Hs. unfold plot. cbv zeta.
  destruct (hasTransition o); cbn [andb].
  - repeat first
      [ apply schedule_sound
      | match goal with
        | |- sound (set_barWidth _ ?x) => change (sound x)
        | |- sound (set_arcEnd _ ?x) => change (sound x)
        | |- sound (set_deltaText _ ?x) => change (sound x)
        | |- sound (set_numberText _ ?x) => change (sound x)
        end ].
    destruct (truthyValue _), mk; exact Hs.
  - destruct (truthyValue _); exact Hs.
Qed.

Lemma plot_store (o : option transitionOpts) (mk : bool) (tr : trace)
      (cd0 : calcPoint) (w : world) :
  deltaLastValue (plot fmt deltaFmt c2p o mk tr cd0 w)
  = if truthyValue (deltaLastValue w) then deltaLastValue w else Some num0.
Proof.
  unfold plot. cbv zeta.
  destruct (hasTransition o); cbn [andb].
  - repeat match goal with
           | |- context [deltaLastValue (schedule ?p ?g ?t ?c ?cb ?x)] =>
               rewrite (proj1 (schedule_frame p g t c cb x))
           | |- _ => progress cbn [deltaLastValue set_barWidth set_arcEnd
                                   set_deltaText set_numberText]
           end.
    destruct mk; cbn [deltaLastValue set_callbacks];
      destruct (truthyValue _); reflexivity.
  - destruct (truthyValue _); reflexivity.
Qed.

Lemma plot_transitions (o : option transitionOpts) (mk : bool) (tr : trace)
      (cd0 : calcPoint) (w : world) :
  transitions (plot fmt deltaFmt c2p o mk tr cd0 w)
  = transitions w
    ++ (if hasTransition o
        then scheduledBy tr cd0 (if mk then Some (callbacks w) else None)
        else []).
Proof.
  unfold plot, scheduledBy, schedule. cbv zeta.
  destruct (hasTransition o); cbn [andb].
  - destruct mk; cbn [deltaLastValue set_callbacks];
      destruct (truthyValue (deltaLastValue w)),
        (hasBigNumber tr), (hasDelta tr), (isAngular tr), (isBullet tr);
      cbn; rewrite <- ?List.app_assoc, ?List.app_nil_r; reflexivity.
  - destruct (truthyValue (deltaLastValue w)); cbn;
      now rewrite List.app_nil_r.
Qed.

Lemma start_sound (i : nat) (w : world) : sound w -> sound (start i w).
Proof.
  intros Hs. unfold start.
  destruct (transitions w !! i) as [tn |] eqn:Hi; [| assumption].
  destruct (ph tn) eqn:Hph; try assumption.
  destruct (supersede_sound (grp tn) i w Hs) as [Hacc Hex].
  destruct (supersede_calmer (grp tn) i w) as (_ & _ & Hkeep & _).
  specialize (Hkeep tn Hi Hph).
  split; cbn.
  - apply (accounted_replace _ _ _ tn); auto.
    rewrite (completed_running tn) by auto.
    apply completed_running. cbn. auto.
  - apply (exclusive_start _ _ tn); auto. cbn.
    apply supersede_quiet.
Qed.

Lemma start_store (i : nat) (w : world) :
  deltaLastValue (start i w) = deltaLastValue w.
Proof.
  unfold start.
  destruct (transitions w !! i) as [tn |]; [| reflexivity].
  destruct (ph tn); try reflexivity.
  cbn. now destruct (supersede_calmer (grp tn) i w) as (_ & _ & _ & -> & _).
Qed.

(** A scheduled transition that starts reads its tween source in the world
    left by the transitions it supersedes. *)
Lemma start_lookup (i : nat) (w : world) (tn : transition) :
  transitions w !! i = Some tn -> ph tn = Scheduled ->
  transitions (start i w) !! i
  = Some (set_phase Animating
            (set_source (tweenSource tn (supersede (grp tn) i w)) tn)).
Proof.
  intros Hi Hph. unfold start. rewrite Hi, Hph. cbn.
  apply list_lookup_insert_eq.
  destruct (supersede_calmer (grp tn) i w) as (-> & _).
  eapply lookup_lt_Some; eassumption.
Qed.

Lemma tick_sound (i : nat) (e : num) (w : world) :
  sound w -> sound (tick fmt deltaFmt c2p i e w).
Proof.
  intros Hs. unfold tick.
  destruct (transitions w !! i) as [tn |]; [| assumption].
  destruct (ph tn); try assumption.
  destruct (applyTween_frame tn e w) as (Ht & Hc & _).
  now apply (sound_ext w).
Qed.

Lemma tick_store (i : nat) (e : num) (w : world) :
  deltaLastValue (tick fmt deltaFmt c2p i e w) = deltaLastValue w.
Proof.
  unfold tick.
  destruct (transitions w !! i) as [tn |]; [| reflexivity].
  destruct (ph tn); try reflexivity.
  now destruct (applyTween_frame tn e w) as (_ & _ & -> & _).
Qed.

Lemma interruptAt_store (i : nat) (w : world) :
  deltaLastValue (interruptAt i w) = deltaLastValue w.
Proof.
  destruct (interruptAt_cases i w) as [-> | (tn & _ & _ & _ & _ & -> & _)];
    reflexivity.
Qed.

(** The world that the ['end'] handler of a running transition leaves. *)
Lemma finish_running (i : nat) (w : world) (tn : transition) :
  transitions w !! i = Some tn -> ph tn = Animating ->
  transitions (finish fmt deltaFmt c2p i w)
  = <[i := set_phase Ended tn]> (transitions w)
  /\ completions (finish fmt deltaFmt c2p i w)
     = completions w ++ match onComplete tn with
                        | Some c => [(i, c)]
                        | None => []
                        end
  /\ deltaLastValue (finish fmt deltaFmt c2p i w)
     = match grp tn with
       | DeltaText => Some (deltaValue (ttrace tn) (datum tn))
       | _ => deltaLastValue w
       end.
Proof.
  intros Hi Hph. unfold finish. rewrite Hi, Hph.
  destruct (applyTween_frame tn num1 w) as (Ht & Hc & Hs & _).
  set (w1 := applyTween fmt deltaFmt c2p tn num1 w) in *.
  assert (Hi1 : transitions w1 !! i = Some tn) by (now rewrite Ht).
  rewrite (set_phaseAt_lookup i Ended w1 tn Hi1).
  unfold onEnd.
  destruct (grp tn);
    rewrite callOnComplete_completions;
    match goal with
    | |- context [callOnComplete i tn ?x] =>
        destruct (callOnComplete_frame i tn x) as (-> & -> & _)
    end;
    cbn; rewrite ?Ht, ?Hc, ?Hs; auto.
Qed.

Lemma finish_idle (i : nat) (w : world) :
  (forall tn, transitions w !! i = Some tn -> ph tn <> Animating) ->
  finish fmt deltaFmt c2p i w = w.
Proof.
  intros Hidle. unfold finish.
  destruct (transitions w !! i) as [tn |] eqn:Hi; [| reflexivity].
  specialize (Hidle tn eq_refl). destruct (ph tn); congruence.
Qed.

Lemma finish_sound (i : nat) (w : world) :
  sound w -> sound (finish fmt deltaFmt c2p i w).
Proof.
  intros [Hacc Hex].
  destruct (transitions w !! i) as [tn |] eqn:Hi.
  - destruct (phase_eq_dec (ph tn) Animating) as [Hph | Hph].
    + destruct (finish_running i w tn Hi Hph) as (Hts & Hlog & _).
      split.
      * rewrite Hts, Hlog. apply accounted_retire; auto.
      * rewrite Hts. apply (exclusive_replace _ _ tn); auto; discriminate.
    + rewrite finish_idle; [now split |]. intros u Hu. congruence.
  - rewrite finish_idle; [now split |]. intros u Hu. congruence.
Qed.

Lemma step_sound (ev : event) (w : world) :
  sound w -> sound (step fmt deltaFmt c2p ev w).
Proof.
  destruct ev; cbn.
  - apply plot_sound.
  - apply start_sound.
  - apply tick_sound.
  - apply finish_sound.
  - apply interruptAt_sound.
Qed.

Lemma run_sound (evs : list event) (w : world) :
  sound w -> sound (run fmt deltaFmt c2p evs w).
Proof.
  revert w. induction evs as [| ev evs IH]; intros w Hs; cbn; [assumption |].
  apply IH, step_sound, Hs.
Qed.

Lemma initial_sound : sound initial.
Proof.
  split; [split |].
  - intros i tn Hi. discriminate Hi.
  - intros i _. reflexivity.
  - intros i j ti tj Hi. discriminate Hi.
Qed.

(** A transition that has started stays in the list, keeps its callback
    and never goes back to waiting nor gets dropped. *)
Lemma step_started (ev : event) (w : world) (i : nat) (tn : transition) :
  transitions w !! i = Some tn -> started tn ->
  exists tn', transitions (step fmt deltaFmt c2p ev w) !! i = Some tn'
              /\ started tn' /\ onComplete tn' = onComplete tn.
Proof.
  intros Hi Hst. destruct ev as [o mk tr cd0 | k | k e | k | k]; cbn [step].
  - exists tn. rewrite plot_transitions.
    split; [now apply lookup_app_l_Some | auto].
  - unfold start.
    destruct (transitions w !! k) as [tk |] eqn:Hk; [| eauto].
    destruct (ph tk) eqn:Hphk; eauto.
    assert (Hne : k <> i).
    { intros ->. assert (tk = tn) by congruence. subst tk.
      destruct Hst as [H | [H | H]]; congruence. }
    cbn. rewrite list_lookup_insert_ne by assumption.
    destruct (supersede_calmer (grp tk) k w) as (Hlen & Hb & _).
    destruct (lookup_lt_is_Some_2 (transitions (supersede (grp tk) k w)) i)
      as [u' Hu'].
    { rewrite Hlen. eapply lookup_lt_Some; eassumption. }
    destruct (Hb _ _ Hu') as (u & Hu & _ & Hcb & _ & Hrun & Hint & Hend).
    assert (u = tn) by congruence. subst u.
    exists u'. repeat split; auto.
    unfold started in *. destruct Hst as [H | [H | H]]; auto.
    destruct (Hrun H); auto.
  - unfold tick.
    destruct (transitions w !! k) as [tk |]; [| eauto].
    destruct (ph tk); eauto.
    destruct (applyTween_frame tk e w) as (-> & _). eauto.
  - destruct (transitions w !! k) as [tk |] eqn:Hk.
    + destruct (phase_eq_dec (ph tk) Animating) as [Hph | Hph].
      * destruct (finish_running k w tk Hk Hph) as (-> & _).
        destruct (decide (k = i)) as [-> | Hne].
        -- assert (tk = tn) by congruence. subst tk.
           exists (set_phase Ended tn).
           rewrite list_lookup_insert_eq
             by (eapply lookup_lt_Some; eassumption).
           unfold started. cbn. auto.
        -- exists tn. rewrite list_lookup_insert_ne by assumption. auto.
      * rewrite finish_idle; [eauto |]. intros u Hu. congruence.
    + rewrite finish_idle; [eauto |]. intros u Hu. congruence.
  - destruct (interruptAt_cases k w) as [-> | (tk & Hk & Hph & -> & _)];
      [eauto |].
    destruct (decide (k = i)) as [-> | Hne].
    + assert (tk = tn) by congruence. subst tk.
      exists (set_phase Interrupted tn).
      rewrite list_lookup_insert_eq by (eapply lookup_lt_Some; eassumption).
      unfold started. cbn. auto.
    + exists tn. rewrite list_lookup_insert_ne by assumption. auto.
Qed.

Lemma run_started (evs : list event) (w : world) (i : nat) (tn : transition) :
  transitions w !! i = Some tn -> started tn ->
  exists tn', transitions (run fmt deltaFmt c2p evs w) !! i = Some tn'
              /\ started tn' /\ onComplete tn' = onComplete tn.
Proof.
  revert w tn. induction evs as [| ev evs IH]; intros w tn Hi Hst; cbn;
    [eauto |].
  destruct (step_started ev w i tn Hi Hst) as (tn1 & Hi1 & Hst1 & Hcb1).
  destruct (IH _ _ Hi1 Hst1) as (tn2 & Hi2 & Hst2 & Hcb2).
  exists tn2. repeat split; auto. congruence.
Qed.

Lemma keptOrInitialised_refl (v : option num) : keptOrInitialised v v.
Proof. now left. Qed.

Lemma keptOrInitialised_trans (v1 v2 v3 : option num) :
  keptOrInitialised v1 v2 -> keptOrInitialised v2 v3 ->
  keptOrInitialised v1 v3.
Proof.
  intros [-> | [Hf ->]] [-> | [Hf' ->]]; unfold keptOrInitialised; auto.
Qed.

Lemma step_store (ev : event) (w : world) :
  isEnd ev = false ->
  keptOrInitialised (deltaLastValue w)
                    (deltaLastValue (step fmt deltaFmt c2p ev w)).
Proof.
  intros Hev. destruct ev; cbn in *; try discriminate.
  - rewrite plot_store. destruct (truthyValue _) eqn:Htr; [now left |].
    right. auto.
  - rewrite start_store. now left.
  - rewrite tick_store. now left.
  - rewrite interruptAt_store. now left.
Qed.

Lemma run_store (evs : list event) (w : world) :
  List.Forall (fun ev => isEnd ev = false) evs ->
  keptOrInitialised (deltaLastValue w)
                    (deltaLastValue (run fmt deltaFmt c2p evs w)).
Proof.
  intros Hevs. revert w.
  induction Hevs as [| ev evs Hev _ IH]; intros w; cbn;
    [apply keptOrInitialised_refl |].
  eapply keptOrInitialised_trans; [apply step_store, Hev | apply IH].
Qed.

End OrchestratorFacts.

Section OrchestratorTheorems.
Variable fmt : num -> string.
Variable deltaFmt : num -> string.
Variable c2p : num -> num.

Lemma start_supersedes (k i : nat) (w : world) (tk tn : transition) :
  transitions w !! k = Some tk -> ph tk = Scheduled ->
  transitions w !! i = Some tn -> ph tn = Animating -> grp tn = grp tk ->
  exists tn', transitions (start k w) !! i = Some tn'
              /\ ph tn' = Interrupted /\ onComplete tn' = onComplete tn.
Proof.
  intros Hk Hphk Hi Hphi Hg.
  assert (Hne : k <> i) by (intros ->; congruence).
  unfold start. rewrite Hk, Hphk. cbn.
  rewrite list_lookup_insert_ne by assumption.
  destruct (supersede_calmer (grp tk) k w) as (Hlen & Hb & _).
  destruct (lookup_lt_is_Some_2 (transitions (supersede (grp tk) k w)) i)
    as [u' Hu'].
  { rewrite Hlen. eapply lookup_lt_Some; eassumption. }
  destruct (Hb _ _ Hu') as (u & Hu & Hg' & Hcb & _ & Hrun & _).
  assert (u = tn) by congruence. subst u.
  exists u'. repeat split; auto.
  destruct (Hrun Hphi) as [Hbad | Hok]; [| assumption].
  exfalso. apply (supersede_quiet (grp tk) k w i u'); congruence.
Qed.



Lemma hasTransition_none_or_zero (o : option transitionOpts) :
  o = None \/ (exists o', o = Some o' /\ duration o' = Fin 0) ->
  hasTransition o = false.
Proof.
  intros [-> | (o' & -> & Hd)]; [reflexivity |].
  cbn. rewrite Hd. apply ltb_fin_false. lra.
Qed.

(** C6. A render without transition options, or with duration 0, creates
    no transition and no completion callback and calls none; it writes the
    final number text, delta text, arc end angle and bar width on the
    elements that exist. *)
Theorem render_without_transition (o : option transitionOpts) (mk : bool)
        (tr : trace) (cd0 : calcPoint) (w : world) :
  o = None \/ (exists o', o = Some o' /\ duration o' = Fin 0) ->
  transitions (plot fmt deltaFmt c2p o mk tr cd0 w) = transitions w
  /\ callbacks (plot fmt deltaFmt c2p o mk tr cd0 w) = callbacks w
  /\ completions (plot fmt deltaFmt c2p o mk tr cd0 w) = completions w
  /\ numberText (plot fmt deltaFmt c2p o mk tr cd0 w)
     = (if hasBigNumber tr
        then Some (String.append (fmt (y cd0)) (bignumberSuffix tr))
        else None)
  /\ deltaText (plot fmt deltaFmt c2p o mk tr cd0 w)
     = (if hasDelta tr
        then Some (deltaFormatText deltaFmt tr (deltaValue tr cd0))
        else None)
  /\ arcEnd (plot fmt deltaFmt c2p o mk tr cd0 w)
     = (if isAngular tr then Some (valueToAngle tr (y cd0)) else None)
  /\ barWidth (plot fmt deltaFmt c2p o mk tr cd0 w)
     = (if isBullet tr then Some (barTarget c2p tr cd0) else None).
Proof.
  intros Ho. apply hasTransition_none_or_zero in Ho.
  unfold plot. rewrite Ho. cbv zeta. cbn [andb].
  destruct (truthyValue (deltaLastValue w));
    cbn; unfold joined, written;
    destruct (hasBigNumber tr), (hasDelta tr), (isAngular tr), (isBullet tr);
    repeat split; reflexivity.
Qed.

End OrchestratorTheorems.

(** ** Axis adapter *)

Section AxisAdapterFacts.
Variable numToString : num -> string.
Variable handleAxisDefaults :
  loc -> loc -> loc -> loc -> gmap loc (gmap string val)
  -> gmap loc (gmap string val).
Variable handleAxisPositionDefaults :
  loc -> loc -> loc -> gmap loc (gmap string val)
  -> gmap loc (gmap string val).

Lemma alloc_fresh (o : gmap string val) (hp : gmap loc (gmap string val)) :
  hp !! fst (alloc o hp) = None.
Proof.
  cbn. apply not_elem_of_dom. apply is_fresh.
Qed.

Lemma alloc_keeps (o : gmap string val) (hp : gmap loc (gmap string val))
      (l : loc) (x : gmap string val) :
  hp !! l = Some x -> snd (alloc o hp) !! l = Some x.
Proof.
  intros Hl. cbn. rewrite lookup_insert_ne; [assumption |].
  intros Heq. pose proof (alloc_fresh o hp) as Hf. cbn in Hf.
  rewrite Heq in Hf. congruence.
Qed.


End AxisAdapterFacts.

(** ** Concrete layouts and gauges *)

Section ConcreteLayouts.
Local Open Scope R_scope.

(** The number font size of the sample angular layouts: inner radius
    [0.75 * 170], three characters. *)
Lemma sample_angular_bignumberFontSize (tr : trace) :
  bignumberFontSize (layoutAngular Sample.cn Sample.fmt tr Sample.size)
  = Fin 85.
Proof.
  unfold layoutAngular, innerRadius, radius, maxLength.
  cbn [bignumberFontSize cn_innerRadius Sample.cn Sample.size w h Sample.fmt
       String.length INR].
  unfold num2. num_norm.
  unfold Rmin. destruct (Rle_dec _ _) as [Hle | Hgt]; [| exfalso; lra].
  f_equal. lra.
Qed.

(** C8 as stated fails: next to an angular gauge the delta font size is
    0.75 times the number font size when no big number is shown, not the
    number font size, and 0.35 times it, not half of it, when the big
    number is shown. *)
Lemma deltaFontSize_fraction_counterexample :
  hasDelta Sample.deltaGauge = true
  /\ hasBigNumber Sample.deltaGauge = false
  /\ bignumberFontSize
       (planLayout Sample.cn Sample.fmt Sample.deltaGauge Sample.size)
     = Fin 85
  /\ deltaFontSize
       (planLayout Sample.cn Sample.fmt Sample.deltaGauge Sample.size)
     = Fin 63.75
  /\ hasDelta Sample.angular = true
  /\ hasBigNumber Sample.angular = true
  /\ bignumberFontSize
       (planLayout Sample.cn Sample.fmt Sample.angular Sample.size)
     = Fin 85
  /\ deltaFontSize
       (planLayout Sample.cn Sample.fmt Sample.angular Sample.size)
     = Fin 29.75
  /\ deltaFontSize
       (planLayout Sample.cn Sample.fmt Sample.deltaGauge Sample.size)
     <> bignumberFontSize
          (planLayout Sample.cn Sample.fmt Sample.deltaGauge Sample.size)
  /\ deltaFontSize
       (planLayout Sample.cn Sample.fmt Sample.angular Sample.size)
     <> (Fin 0.5
         * bignumberFontSize
             (planLayout Sample.cn Sample.fmt Sample.angular Sample.size))%num.
Proof.
  assert (Hd1 : deltaFontSize
                  (layoutSizes Sample.cn Sample.fmt Sample.deltaGauge
                               Sample.size)
                = Fin 63.75).
  { change (Fin 0.75
            * bignumberFontSize
                (layoutAngular Sample.cn Sample.fmt Sample.deltaGauge
                               Sample.size)
            = Fin 63.75)%num.
    rewrite sample_angular_bignumberFontSize, mul_fin. f_equal. lra. }
  assert (Hd2 : deltaFontSize
                  (layoutSizes Sample.cn Sample.fmt Sample.angular Sample.size)
                = Fin 29.75).
  { change (Fin 0.35
            * bignumberFontSize
                (layoutAngular Sample.cn Sample.fmt Sample.angular Sample.size)
            = Fin 29.75)%num.
    rewrite sample_angular_bignumberFontSize, mul_fin. f_equal. lra. }
  assert (Hb1 : bignumberFontSize
                  (layoutSizes Sample.cn Sample.fmt Sample.deltaGauge
                               Sample.size)
                = Fin 85).
  { change (bignumberFontSize
              (layoutAngular Sample.cn Sample.fmt Sample.deltaGauge
                             Sample.size)
            = Fin 85).
    apply sample_angular_bignumberFontSize. }
  assert (Hb2 : bignumberFontSize
                  (layoutSizes Sample.cn Sample.fmt Sample.angular Sample.size)
                = Fin 85).
  { change (bignumberFontSize
              (layoutAngular Sample.cn Sample.fmt Sample.angular Sample.size)
            = Fin 85).
    apply sample_angular_bignumberFontSize. }
  rewrite !planLayout_bignumberFontSize, !planLayout_deltaFontSize.
  rewrite Hd1, Hd2, Hb1, Hb2, mul_fin.
  repeat split; try reflexivity.
  - intros Heq. injection Heq as Heq. lra.
  - intros Heq. injection Heq as Heq. lra.
Qed.

Lemma deltaFontSize_fraction_witness :
  deltaFontSize (planLayout Sample.cn Sample.fmt Sample.angular Sample.size)
  = (Fin 0.35
     * bignumberFontSize
         (planLayout Sample.cn Sample.fmt Sample.angular Sample.size))%num.
Proof.
  apply (deltaFontSize_fraction Sample.cn Sample.fmt Sample.size Sample.angular).
  reflexivity.
Defined.

Lemma fit_scale_capped_witness :
  exists s : R,
    appliedScale
      (numbersTransform
         (planLayout Sample.cn Sample.fmt Sample.numberDelta Sample.size)
         {| bb_width := Fin 680; bb_height := Fin 150 |})
    = Fin s /\
    s = Rmin (Rmin (0.85 * 400 / 680) (300 / 150)) 1 /\
    s <= 1 /\
    (0.85 * 400 = 680 -> 300 = 150 -> s = 1).
Proof.
  apply (fit_scale_capped
           (planLayout Sample.cn Sample.fmt Sample.numberDelta Sample.size)
           (0.85 * 400) 300 680 150);
    [reflexivity | reflexivity | lra | lra].
Defined.


Lemma falsy_threshold_not_drawn_witness :
  arcs (Sample.zeroThreshold Angular)
  = [(Background, gaugeBg (Sample.zeroThreshold Angular))]
    ++ List.map (fun s => (StepRange s, s))
                (steps (gauge (Sample.zeroThreshold Angular)))
  /\ thresholdData Sample.cn Sample.size Sample.c2p
                   (Sample.zeroThreshold Angular) = []
  /\ ~ List.In ThresholdMarker
       (zorder (angularGauge (Sample.zeroThreshold Angular) Sample.point))
  /\ ~ List.In ThresholdMarker
       (zorder (bulletGauge Sample.cn Sample.size Sample.c2p
                            (Sample.zeroThreshold Angular) Sample.point)).
Proof.
  apply (falsy_threshold_not_drawn Sample.cn Sample.size Sample.c2p
           (Sample.zeroThreshold Angular) Sample.point).
  right. right. reflexivity.
Defined.

End ConcreteLayouts.

(** ** Concrete runs *)

Section ConcreteRuns.

Lemma hasTransition_positive (d : R) (e : string) :
  (0 < d)%R -> hasTransition (Some {| duration := Fin d; easing := e |}) = true.
Proof.
  intros Hd. cbn. unfold gtb. apply ltb_fin_true. assumption.
Qed.

Lemma firstRender_runningDelta :
  transitions Sample.afterFirst !! 1 = Some Sample.runningDelta.
Proof.
  unfold Sample.afterFirst, Sample.firstRender, run.
  cbn [List.fold_left step]. unfold plot.
  unfold Sample.halfSecond. rewrite hasTransition_positive by lra.
  reflexivity.
Qed.

Lemma superseding_pendingDelta :
  transitions Sample.afterSecond !! 4 = Some Sample.pendingDelta.
Proof.
  unfold Sample.afterSecond, Sample.superseding, run.
  cbn [List.fold_left step]. rewrite plot_transitions.
  unfold Sample.afterFirst, Sample.firstRender, run.
  cbn [List.fold_left step]. unfold plot.
  unfold Sample.halfSecond. rewrite !hasTransition_positive by lra.
  reflexivity.
Qed.



Lemma render_without_transition_witness :
  transitions (plot Sample.fmt Sample.deltaFmt Sample.c2p
                    (Some Sample.instant) true Sample.angular Sample.point
                    initial)
  = []
  /\ callbacks (plot Sample.fmt Sample.deltaFmt Sample.c2p
                     (Some Sample.instant) true Sample.angular Sample.point
                     initial)
     = 0
  /\ completions (plot Sample.fmt Sample.deltaFmt Sample.c2p
                       (Some Sample.instant) true Sample.angular Sample.point
                       initial)
     = []
  /\ numberText (plot Sample.fmt Sample.deltaFmt Sample.c2p
                      (Some Sample.instant) true Sample.angular Sample.point
                      initial)
     = Some "100 km"
  /\ deltaText (plot Sample.fmt Sample.deltaFmt Sample.c2p
                     (Some Sample.instant) true Sample.angular Sample.point
                     initial)
     = Some (deltaFormatText Sample.deltaFmt Sample.angular (Fin 20))
  /\ arcEnd (plot Sample.fmt Sample.deltaFmt Sample.c2p
                  (Some Sample.instant) true Sample.angular Sample.point
                  initial)
     = Some (valueToAngle Sample.angular (Fin 60))
  /\ barWidth (plot Sample.fmt Sample.deltaFmt Sample.c2p
                    (Some Sample.instant) true Sample.angular Sample.point
                    initial)
     = None.
Proof.
  apply (render_without_transition Sample.fmt Sample.deltaFmt Sample.c2p
           (Some Sample.instant) true Sample.angular Sample.point initial).
  right. exists Sample.instant. split; reflexivity.
Defined.

Lemma sample_axisDefaults_writesOnly (ai ao aopt fl : loc)
      (hp : gmap loc (gmap string val)) :
  writesOnly [ai; ao; aopt] hp (Sample.axisDefaults ai ao aopt fl hp).
Proof.
  intros l o Hnot Hl. unfold Sample.axisDefaults.
  rewrite lookup_alter_ne; [assumption |].
  intros ->. apply Hnot. cbn. auto.
Qed.

Lemma sample_axisPositionDefaults_writesOnly (ai ao aopt : loc)
      (hp : gmap loc (gmap string val)) :
  writesOnly [ai; ao; aopt] hp (Sample.axisPositionDefaults ai ao aopt hp).
Proof.
  intros l o Hnot Hl. unfold Sample.axisPositionDefaults.
  rewrite lookup_alter_ne; [assumption |].
  intros ->. apply Hnot. cbn. auto.
Qed.


End ConcreteRuns.

(* ===================================================================== *)
(** * Part III: further properties of the code                            *)
(* ===================================================================== *)

(** ** The angular gauge *)

Section AngularFacts.
Local Open Scope R_scope.

Lemma neg_fin (a : R) : neg (Fin a) = Fin (- a).
Proof. reflexivity. Qed.

Lemma sample_radius : radius Sample.size = Fin 170.
Proof.
  unfold radius. cbn [w h Sample.size]. unfold num2. num_norm.
  unfold Rmin. destruct (Rle_dec _ _); [f_equal; lra | exfalso; lra].
Qed.

Lemma sample_innerRadius : innerRadius Sample.cn Sample.size = Fin 127.5.
Proof.
  unfold innerRadius. rewrite sample_radius. cbn [cn_innerRadius Sample.cn].
  rewrite mul_fin. f_equal. lra.
Qed.



Lemma clampAngle_low : clampAngle (- (PI / 2)) = - (PI / 2).
Proof.
  pose proof PI_RGT_0. unfold clampAngle.
  destruct (Rlt_dec _ _); [reflexivity |].
  destruct (Rlt_dec _ _); [lra | reflexivity].
Qed.

Lemma clampAngle_high : clampAngle (PI / 2) = PI / 2.
Proof.
  pose proof PI_RGT_0. unfold clampAngle.
  destruct (Rlt_dec _ _); [lra |].
  destruct (Rlt_dec _ _); [lra | reflexivity].
Qed.







Lemma cos_PI_minus (x : R) : cos (PI - x) = - cos x.
Proof.
  rewrite cos_minus, cos_PI, sin_PI. ring.
Qed.


(** X6. The anchor of a tick label agrees with the side of the dial the
    label is pushed to: for a positive standoff, ['start'] goes with a
    positive horizontal offset [xFn] and ['end'] with a negative one. *)
Theorem anchorFn_side (rad st : R) :
  0 < st ->
  exists x : R,
    xFn (Fin st) (Fin rad) = Fin x
    /\ (anchorFn (Fin rad) = "start" -> 0 < x)
    /\ (anchorFn (Fin rad) = "end" -> x < 0).
Proof.
  intros Hst. exists (cos rad * st). split; [reflexivity |].
  unfold anchorFn. cbn [Math_cos Math_abs]. unfold ltb, gtb, num0, ltb.
  destruct (Rlt_dec (Rabs (cos rad)) 0.1) as [Hm | Hm];
    [split; discriminate |].
  assert (Hc : cos rad <> 0).
  { intros H0. rewrite H0, Rabs_R0 in Hm. lra. }
  destruct (Rlt_dec 0 (cos rad)); split; intros H; try discriminate; nra.
Qed.

Lemma anchorFn_side_witness :
  exists x : R,
    xFn (Fin 12) (Fin 0) = Fin x
    /\ (anchorFn (Fin 0) = "start" -> 0 < x)
    /\ (anchorFn (Fin 0) = "end" -> x < 0).
Proof.
  apply (anchorFn_side 0 12). lra.
Defined.

(** X7. The vertical shift of a tick label is never downwards and never
    more than the label height: for a height [h >= 0], [heightFn] lies in
    [[-h, 0]]. *)
Theorem heightFn_range (rad h : R) :
  0 <= h ->
  exists v : R,
    heightFn (Fin rad) (Fin h) = Fin v /\ - h <= v <= 0.
Proof.
  intros Hh. exists (Ropp 0.5 * (1 + sin rad) * h).
  split; [reflexivity |].
  pose proof (SIN_bound rad). nra.
Qed.

Lemma heightFn_range_witness :
  exists v : R,
    heightFn (Fin 1) (Fin 14) = Fin v /\ - 14 <= v <= 0.
Proof.
  apply (heightFn_range 1 14). lra.
Defined.

End AngularFacts.

(** ** The bullet gauge *)

Section BulletFacts.
Local Open Scope R_scope.


Lemma sample_bulletHeight : bulletHeight Sample.cn Sample.size = Fin 50.
Proof.
  unfold bulletHeight. cbn [cn_bulletHeight Sample.cn h Sample.size].
  unfold num2. num_norm. unfold Rmin.
  destruct (Rle_dec _ _); [reflexivity | exfalso; lra].
Qed.




Lemma max_zero_not_negative (z : num) : ltb (max num0 z) num0 = false.
Proof.
  unfold max, num0.
  destruct z as [| | a |]; try reflexivity.
  - cbn. destruct (Rlt_dec 0 0); [lra | reflexivity].
  - unfold ltb. destruct (Rlt_dec 0 a).
    + destruct (Rlt_dec a 0); [lra | reflexivity].
    + destruct (Rlt_dec 0 0); [lra | reflexivity].
Qed.



End BulletFacts.

(** ** Layout *)

Section LayoutGeometry.
Local Open Scope R_scope.





(** X13. When the domain is not wide, the radius of the angular gauge is
    set by the width: it is [0.85 * w / 2]. *)
Theorem radius_when_not_wide (size : boxSize) (W H : R) :
  w size = Fin W -> h size = Fin H -> 0 <= W -> isWide size = false ->
  radius size = Fin (0.85 * W / 2).
Proof.
  intros Hw Hh HW Hwide. unfold isWide, radius in *.
  rewrite Hw, Hh in *. unfold num2 in *.
  revert Hwide. num_norm. unfold gtb, ltb.
  destruct (Rlt_dec _ _) as [Hlt | Hge]; [discriminate |]. intros _.
  unfold Rmin. destruct (Rle_dec _ _); [reflexivity | exfalso; lra].
Qed.

Lemma radius_when_not_wide_witness :
  radius {| w := Fin 300; h := Fin 400; l := Fin 0; r := Fin 0; t := Fin 0;
            b := Fin 0 |}
  = Fin (0.85 * 300 / 2).
Proof.
  apply (radius_when_not_wide _ 300 400); try reflexivity; try lra.
  unfold isWide. cbn [w h]. unfold num2. num_norm.
  apply ltb_fin_false. lra.
Defined.

End LayoutGeometry.

(** ** The number block *)

Section NumberBlockFacts.

(** X14. The number block holds one tspan for each of the number and the
    delta that is shown; when both are shown the delta comes first exactly
    when its position is ['left']; and a [dx] offset is only ever given to
    the second of two tspans, for an inline position. *)
Theorem numbersData_tspans (tr : trace) :
  length (numbersData tr)
  = (if hasBigNumber tr then 1 else 0) + (if hasDelta tr then 1 else 0)
  /\ (hasBigNumber tr = true -> hasDelta tr = true ->
      List.map class (numbersData tr)
      = if isLeft (delta_position (delta tr))
        then ["delta"; "number"] else ["number"; "delta"])
  /\ (forall i sp d,
         numbersData tr !! i = Some sp -> tspanDx tr i = Some d ->
         i = 1 /\ d = Fin 10 /\ hasBigNumber tr = true /\ hasDelta tr = true
         /\ isInline (delta_position (delta tr)) = true).
Proof.
  unfold numbersData, tspanDx.
  destruct (hasBigNumber tr), (hasDelta tr),
    (delta_position (delta tr)); cbn;
    (split; [reflexivity |]); (split; [intros; try reflexivity; discriminate |]);
    intros [| [| i]] sp d Hsp Hd; cbn in *; try discriminate;
    injection Hd as <-; auto.
Qed.

Lemma numbersData_tspans_witness :
  length (numbersData Sample.angular) = 1 + 1
  /\ (hasBigNumber Sample.angular = true -> hasDelta Sample.angular = true ->
      List.map class (numbersData Sample.angular) = ["number"; "delta"])
  /\ (forall i sp d,
         numbersData Sample.angular !! i = Some sp ->
         tspanDx Sample.angular i = Some d ->
         i = 1 /\ d = Fin 10 /\ hasBigNumber Sample.angular = true
         /\ hasDelta Sample.angular = true
         /\ isInline (delta_position (delta Sample.angular)) = true).
Proof.
  exact (numbersData_tspans Sample.angular).
Defined.

Lemma geb_fin (a b : R) : geb (Fin a) (Fin b) = negb (ltb (Fin a) (Fin b)).
Proof. reflexivity. Qed.

(** X15. Without [showpercentage], the colour of the delta follows the
    symbol shown: a positive delta has the increasing symbol and colour, a
    negative one the decreasing symbol and colour; a zero delta is shown
    as ['-'] in the increasing colour. *)
Theorem delta_colour_follows_symbol (deltaFmt : num -> string) (tr : trace)
        (d : calcPoint) (x : R) :
  showpercentage (delta tr) = false -> cd_delta d = Fin x ->
  ((0 < x)%R ->
   deltaFormatText deltaFmt tr (deltaValue tr d)
   = String.append (symbol (increasing (delta tr))) (deltaFmt (Fin x))
   /\ deltaFill tr d = symbol_color (increasing (delta tr)))
  /\ ((x < 0)%R ->
      deltaFormatText deltaFmt tr (deltaValue tr d)
      = String.append (symbol (decreasing (delta tr))) (deltaFmt (Fin x))
      /\ deltaFill tr d = symbol_color (decreasing (delta tr)))
  /\ (x = 0%R ->
      deltaFormatText deltaFmt tr (deltaValue tr d) = "-"
      /\ deltaFill tr d = symbol_color (increasing (delta tr))).
Proof.
  intros Hpct Hx. unfold deltaFormatText, deltaFill, deltaValue.
  rewrite Hpct, Hx. unfold num0, gtb. rewrite geb_fin. unfold eqb, ltb.
  repeat split; intros;
    destruct (Req_dec_T x 0); destruct (Rlt_dec 0 x); destruct (Rlt_dec x 0);
    try reflexivity; exfalso; lra.
Qed.

Lemma delta_colour_follows_symbol_witness :
  ((0 < 20)%R ->
   deltaFormatText Sample.deltaFmt Sample.angular
                   (deltaValue Sample.angular Sample.point)
   = String.append "+" (Sample.deltaFmt (Fin 20))
   /\ deltaFill Sample.angular Sample.point = "green")
  /\ ((20 < 0)%R ->
      deltaFormatText Sample.deltaFmt Sample.angular
                      (deltaValue Sample.angular Sample.point)
      = String.append "-" (Sample.deltaFmt (Fin 20))
      /\ deltaFill Sample.angular Sample.point = "red")
  /\ (20%R = 0%R ->
      deltaFormatText Sample.deltaFmt Sample.angular
                      (deltaValue Sample.angular Sample.point) = "-"
      /\ deltaFill Sample.angular Sample.point = "green").
Proof.
  apply (delta_colour_follows_symbol Sample.deltaFmt Sample.angular
           Sample.point 20); reflexivity.
Defined.

End NumberBlockFacts.

(** ** Animated and synchronous renders *)

Section TweenFacts.
Variable fmt : num -> string.
Variable deltaFmt : num -> string.
Variable c2p : num -> num.

Lemma interpolateNumber_fin (a b t : R) :
  interpolateNumber (Fin a) (Fin b) (Fin t) = Fin (a * (1 - t) + b * t).
Proof.
  unfold interpolateNumber, num1. now num_norm.
Qed.

Lemma interpolateNumber_end (a b : R) :
  interpolateNumber (Fin a) (Fin b) num1 = Fin b.
Proof.
  unfold num1. rewrite interpolateNumber_fin. f_equal. ring.
Qed.




End TweenFacts.

Section TweenRuns.


End TweenRuns.

Section RenderFacts.
Variable fmt : num -> string.
Variable deltaFmt : num -> string.
Variable c2p : num -> num.

Lemma plot_untimed (mk : bool) (tr : trace) (cd0 : calcPoint) (w : world)
      (o : option transitionOpts) :
  hasTransition o = false ->
  plot fmt deltaFmt c2p o mk tr cd0 w
  = let w0 := if truthyValue (deltaLastValue w) then w
              else set_deltaLastValue (Some num0) w in
    {| deltaLastValue := deltaLastValue w0;
       numberText :=
         if hasBigNumber tr
         then Some (String.append (fmt (y cd0)) (bignumberSuffix tr))
         else None;
       deltaText :=
         if hasDelta tr
         then Some (deltaFormatText deltaFmt tr (deltaValue tr cd0))
         else None;
       arcEnd := if isAngular tr then Some (valueToAngle tr (y cd0)) else None;
       barWidth := if isBullet tr then Some (barTarget c2p tr cd0) else None;
       transitions := transitions w; callbacks := callbacks w;
       completions := completions w |}.
Proof.
  intros Ho. unfold plot. rewrite Ho. cbv zeta. cbn [andb].
  destruct (truthyValue (deltaLastValue w));
    unfold joined, written;
    destruct (hasBigNumber tr), (hasDelta tr), (isAngular tr), (isBullet tr);
    reflexivity.
Qed.

(** X18. A render whose transition duration is not a positive number
    (zero, negative or NaN) is the same as a render without transition
    options, whether or not a callback factory is passed. *)
Theorem nonpositive_duration_is_synchronous (o : transitionOpts)
        (mk mk' : bool) (tr : trace) (cd0 : calcPoint) (w : world) :
  duration o = NaN \/ duration o = NegInf
  \/ (exists d, duration o = Fin d /\ (d <= 0)%R) ->
  plot fmt deltaFmt c2p (Some o) mk tr cd0 w
  = plot fmt deltaFmt c2p None mk' tr cd0 w.
Proof.
  intros Hd.
  assert (Ho : hasTransition (Some o) = false).
  { cbn. destruct Hd as [-> | [-> | (d & -> & Hle)]]; try reflexivity.
    apply ltb_fin_false. exact Hle. }
  rewrite (plot_untimed mk tr cd0 w (Some o) Ho).
  now rewrite (plot_untimed mk' tr cd0 w None eq_refl).
Qed.

(** X19. A render without transition is idempotent: rendering the same
    data a second time changes nothing. *)
Theorem synchronous_render_idempotent (o : option transitionOpts)
        (mk : bool) (tr : trace) (cd0 : calcPoint) (w : world) :
  hasTransition o = false ->
  plot fmt deltaFmt c2p o mk tr cd0 (plot fmt deltaFmt c2p o mk tr cd0 w)
  = plot fmt deltaFmt c2p o mk tr cd0 w.
Proof.
  intros Ho.
  rewrite (plot_untimed mk tr cd0 w o Ho).
  rewrite plot_untimed by exact Ho. cbv zeta.
  destruct (truthyValue (deltaLastValue w)) eqn:Hv; cbn.
  - rewrite Hv. reflexivity.
  - unfold num0, truthy. cbn.
    destruct (Req_dec_T 0 0) as [_ | Hne]; [reflexivity | now destruct Hne].
Qed.

(** X20. Whatever the transition options, after a render each animated
    element exists exactly when its feature is in the mode: the number
    text with ['bignumber'], the delta text with ['delta'], the value arc
    with an angular gauge and the value bar with a bullet gauge; the arc
    and the bar never exist together. *)
Theorem elements_follow_mode (o : option transitionOpts) (mk : bool)
        (tr : trace) (cd0 : calcPoint) (w : world) :
  (is_Some (numberText (plot fmt deltaFmt c2p o mk tr cd0 w))
   <-> hasBigNumber tr = true)
  /\ (is_Some (deltaText (plot fmt deltaFmt c2p o mk tr cd0 w))
      <-> hasDelta tr = true)
  /\ (is_Some (arcEnd (plot fmt deltaFmt c2p o mk tr cd0 w))
      <-> isAngular tr = true)
  /\ (is_Some (barWidth (plot fmt deltaFmt c2p o mk tr cd0 w))
      <-> isBullet tr = true)
  /\ ~ (is_Some (arcEnd (plot fmt deltaFmt c2p o mk tr cd0 w))
        /\ is_Some (barWidth (plot fmt deltaFmt c2p o mk tr cd0 w))).
Proof.
  assert (Hex : isAngular tr = true -> isBullet tr = true -> False).
  { unfold isAngular, isBullet.
    destruct (hasGauge tr), (gauge_shape (gauge tr)); discriminate. }
  assert (Hel :
    (is_Some (numberText (plot fmt deltaFmt c2p o mk tr cd0 w))
     <-> hasBigNumber tr = true)
    /\ (is_Some (deltaText (plot fmt deltaFmt c2p o mk tr cd0 w))
        <-> hasDelta tr = true)
    /\ (is_Some (arcEnd (plot fmt deltaFmt c2p o mk tr cd0 w))
        <-> isAngular tr = true)
    /\ (is_Some (barWidth (plot fmt deltaFmt c2p o mk tr cd0 w))
        <-> isBullet tr = true)).
  { unfold plot. cbv zeta.
    destruct (hasTransition o); cbn [andb].
    - repeat match goal with
             | |- context [numberText (schedule ?p ?g ?t ?c ?cb ?x)] =>
                 rewrite (proj1 (proj2 (proj2 (proj2
                            (schedule_frame p g t c cb x)))))
             | |- context [deltaText (schedule ?p ?g ?t ?c ?cb ?x)] =>
                 rewrite (proj1 (proj2 (proj2 (proj2 (proj2
                            (schedule_frame p g t c cb x))))))
             | |- context [arcEnd (schedule ?p ?g ?t ?c ?cb ?x)] =>
                 rewrite (proj1 (proj2 (proj2 (proj2 (proj2 (proj2
                            (schedule_frame p g t c cb x)))))))
             | |- context [barWidth (schedule ?p ?g ?t ?c ?cb ?x)] =>
                 rewrite (proj2 (proj2 (proj2 (proj2 (proj2 (proj2
                            (schedule_frame p g t c cb x)))))))
             | |- _ => progress cbn [numberText deltaText arcEnd barWidth
                                     set_barWidth set_arcEnd set_deltaText
                                     set_numberText]
             end.
      unfold joined.
      destruct (hasBigNumber tr), (hasDelta tr), (isAngular tr),
        (isBullet tr);
        repeat split; intros H; try reflexivity; try discriminate;
        try (now apply is_Some_None in H); eauto.
    - cbn. unfold joined, written.
      destruct (hasBigNumber tr), (hasDelta tr), (isAngular tr),
        (isBullet tr);
        repeat split; intros H; try reflexivity; try discriminate;
        try (now apply is_Some_None in H); eauto. }
  destruct Hel as (Hn & Hd & Ha & Hb).
  repeat split; try apply Hn; try apply Hd; try apply Ha; try apply Hb.
  intros [HA HB]. apply Ha in HA. apply Hb in HB. auto.
Qed.


End RenderFacts.

Section RenderRuns.

Lemma nonpositive_duration_is_synchronous_witness :
  plot Sample.fmt Sample.deltaFmt Sample.c2p
       (Some {| duration := Fin (-300); easing := "linear" |}) true
       Sample.angular Sample.point initial
  = plot Sample.fmt Sample.deltaFmt Sample.c2p None false
         Sample.angular Sample.point initial.
Proof.
  apply (nonpositive_duration_is_synchronous Sample.fmt Sample.deltaFmt
           Sample.c2p {| duration := Fin (-300); easing := "linear" |}).
  right. right. exists (-300)%R. split; [reflexivity | lra].
Defined.

Lemma synchronous_render_idempotent_witness :
  plot Sample.fmt Sample.deltaFmt Sample.c2p None true Sample.angular
       Sample.point
       (plot Sample.fmt Sample.deltaFmt Sample.c2p None true Sample.angular
             Sample.point initial)
  = plot Sample.fmt Sample.deltaFmt Sample.c2p None true Sample.angular
         Sample.point initial.
Proof.
  apply (synchronous_render_idempotent Sample.fmt Sample.deltaFmt Sample.c2p
           None true Sample.angular Sample.point initial).
  reflexivity.
Defined.


End RenderRuns.

(** ** Completion calls per callback *)

Section TallyFacts.

Lemma callsOf_app (c : nat) (l1 l2 : list (nat * nat)) :
  callsOf c (l1 ++ l2) = callsOf c l1 + callsOf c l2.
Proof.
  unfold callsOf. now rewrite List.filter_app, List.length_app.
Qed.

Lemma filter_insert_length {A : Type} (f : A -> bool) (l : list A) (i : nat)
      (x x' : A) :
  l !! i = Some x ->
  length (List.filter f (<[i := x']> l)) + (if f x then 1 else 0)
  = length (List.filter f l) + (if f x' then 1 else 0).
Proof.
  revert i. induction l as [| a l IH]; intros [| i] Hi; try discriminate.
  - cbn in Hi. injection Hi as ->. cbn.
    destruct (f x), (f x'); cbn; lia.
  - change (<[S i := x']> (a :: l)) with (a :: <[i := x']> l).
    change ((a :: l) !! S i) with (l !! i) in Hi.
    specialize (IH i Hi). cbn [List.filter].
    destruct (f a); cbn [length]; lia.
Qed.

Lemma finishedHolding_running (c : nat) (tn : transition) :
  ph tn = Scheduled \/ ph tn = Animating \/ ph tn = Cancelled ->
  finishedHolding c tn = false.
Proof.
  unfold finishedHolding.
  intros [H | [H | H]]; rewrite H; destruct (onComplete tn); reflexivity.
Qed.

(** A running transition is retired and its handler charges its callback. *)
Lemma tallied_retire (w w' : world) (i : nat) (tn : transition) (p : phase) :
  tallied w -> transitions w !! i = Some tn -> ph tn = Animating ->
  p = Ended \/ p = Interrupted ->
  transitions w' = <[i := set_phase p tn]> (transitions w) ->
  completions w'
  = completions w ++ match onComplete tn with
                     | Some c => [(i, c)]
                     | None => []
                     end ->
  tallied w'.
Proof.
  intros Hw Hi Hph Hp Hts Hlog c. rewrite Hts, Hlog, callsOf_app, (Hw c).
  pose proof (filter_insert_length (finishedHolding c) (transitions w) i tn
                (set_phase p tn) Hi) as Hf.
  rewrite (finishedHolding_running c tn) in Hf by auto.
  assert (Hnew :
    callsOf c match onComplete tn with Some c' => [(i, c')] | None => [] end
    = if finishedHolding c (set_phase p tn) then 1 else 0).
  { unfold finishedHolding, callsOf. cbn [onComplete ph set_phase].
    destruct (onComplete tn) as [c' |];
      destruct Hp as [-> | ->]; cbn; try reflexivity;
      destruct (c' =? c); reflexivity. }
  rewrite Hnew. lia.
Qed.

(** A transition is replaced by one that owes the same calls. *)
Lemma tallied_replace (w w' : world) (i : nat) (tn tn' : transition) :
  tallied w -> transitions w !! i = Some tn ->
  (forall c, finishedHolding c tn' = finishedHolding c tn) ->
  transitions w' = <[i := tn']> (transitions w) ->
  completions w' = completions w ->
  tallied w'.
Proof.
  intros Hw Hi Hsame Hts Hlog c. rewrite Hts, Hlog, (Hw c).
  pose proof (filter_insert_length (finishedHolding c) (transitions w) i tn
                tn' Hi) as Hf.
  rewrite (Hsame c) in Hf. lia.
Qed.

(** Waiting transitions are added. *)
Lemma tallied_grow (w w' : world) (ts : list transition) :
  tallied w -> Forall (fun tn => ph tn = Scheduled) ts ->
  transitions w' = transitions w ++ ts ->
  completions w' = completions w ->
  tallied w'.
Proof.
  intros Hw Hts Htr Hlog c.
  rewrite Htr, Hlog, (Hw c), List.filter_app, List.length_app.
  assert (Hnone : List.filter (finishedHolding c) ts = []).
  { clear Htr. induction Hts as [| tn ts Hph _ IH]; [reflexivity |].
    cbn. rewrite (finishedHolding_running c tn) by auto. exact IH. }
  rewrite Hnone. cbn. lia.
Qed.

Lemma tallied_ext (w w' : world) :
  tallied w -> transitions w' = transitions w ->
  completions w' = completions w -> tallied w'.
Proof.
  intros Hw Hts Hlog c. rewrite Hts, Hlog. apply Hw.
Qed.

Lemma interruptAt_tallied (i : nat) (w : world) :
  tallied w -> tallied (interruptAt i w).
Proof.
  intros Hw.
  destruct (interruptAt_cases i w)
    as [-> | (tn & Hi & Hph & Hts & Hlog & _)]; [assumption |].
  apply (tallied_retire w _ i tn Interrupted); auto.
Qed.

Lemma cancelAt_tallied (i : nat) (w : world) :
  tallied w -> tallied (cancelAt i w).
Proof.
  intros Hw.
  destruct (cancelAt_cases i w) as [-> | (tn & Hi & Hph & ->)];
    [assumption |].
  apply (tallied_replace w _ i tn (set_phase Cancelled tn)); auto.
  intros c. rewrite !finishedHolding_running; cbn; auto.
Qed.

Lemma supersedeAt_tallied (g : group) (i j : nat) (w : world) :
  tallied w -> tallied (supersedeAt g i w j).
Proof.
  intros Hw. unfold supersedeAt.
  destruct (transitions w !! j) as [u |]; [| assumption].
  destruct (group_eqb (grp u) g); [| assumption].
  apply interruptAt_tallied.
  destruct (j <? i); [apply cancelAt_tallied |]; assumption.
Qed.

Lemma supersede_tallied (g : group) (i : nat) (w : world) :
  tallied w -> tallied (supersede g i w).
Proof.
  unfold supersede.
  generalize (List.seq 0 (length (transitions w))). intros js.
  revert w. induction js as [| j js IH]; intros w Hw; [assumption |].
  cbn. apply IH. now apply supersedeAt_tallied.
Qed.

Lemma start_tallied (i : nat) (w : world) : tallied w -> tallied (start i w).
Proof.
  intros Hw. unfold start.
  destruct (transitions w !! i) as [tn |] eqn:Hi; [| assumption].
  destruct (ph tn) eqn:Hph; try assumption.
  pose proof (supersede_tallied (grp tn) i w Hw) as Hw1.
  destruct (supersede_calmer (grp tn) i w) as (_ & _ & Hkeep & _).
  specialize (Hkeep tn Hi Hph).
  apply (tallied_replace (supersede (grp tn) i w) _ i tn
           (set_phase Animating
              (set_source (tweenSource tn (supersede (grp tn) i w)) tn)));
    auto.
  intros c. rewrite !finishedHolding_running; cbn; auto.
Qed.

End TallyFacts.

Section TallyTheorems.
Variable fmt : num -> string.
Variable deltaFmt : num -> string.
Variable c2p : num -> num.

Lemma tick_tallied (i : nat) (e : num) (w : world) :
  tallied w -> tallied (tick fmt deltaFmt c2p i e w).
Proof.
  intros Hw. unfold tick.
  destruct (transitions w !! i) as [tn |]; [| assumption].
  destruct (ph tn); try assumption.
  destruct (applyTween_frame fmt deltaFmt c2p tn e w) as (Ht & Hc & _).
  now apply (tallied_ext w).
Qed.

Lemma finish_tallied (i : nat) (w : world) :
  tallied w -> tallied (finish fmt deltaFmt c2p i w).
Proof.
  intros Hw.
  destruct (transitions w !! i) as [tn |] eqn:Hi.
  - destruct (phase_eq_dec (ph tn) Animating) as [Hph | Hph].
    + destruct (finish_running fmt deltaFmt c2p i w tn Hi Hph)
        as (Hts & Hlog & _).
      apply (tallied_retire w _ i tn Ended); auto.
    + rewrite finish_idle; [assumption |]. intros u Hu. congruence.
  - rewrite finish_idle; [assumption |]. intros u Hu. congruence.
Qed.

Lemma plot_completions (o : option transitionOpts) (mk : bool) (tr : trace)
      (cd0 : calcPoint) (w : world) :
  completions (plot fmt deltaFmt c2p o mk tr cd0 w) = completions w.
Proof.
  unfold plot. cbv zeta.
  destruct (hasTransition o); cbn [andb].
  - repeat match goal with
           | |- context [completions (schedule ?p ?g ?t ?c ?cb ?x)] =>
               rewrite (proj1 (proj2 (schedule_frame p g t c cb x)))
           | |- _ => progress cbn [completions set_barWidth set_arcEnd
                                   set_deltaText set_numberText]
           end.
    destruct mk; cbn [deltaLastValue set_callbacks];
      destruct (truthyValue _); reflexivity.
  - destruct (truthyValue _); reflexivity.
Qed.

Lemma scheduledBy_waiting (tr : trace) (cd0 : calcPoint) (cb : option nat) :
  Forall (fun tn => ph tn = Scheduled) (scheduledBy tr cd0 cb).
Proof.
  unfold scheduledBy.
  destruct (hasBigNumber tr), (hasDelta tr), (isAngular tr), (isBullet tr);
    cbn; repeat constructor.
Qed.

Lemma plot_tallied (o : option transitionOpts) (mk : bool) (tr : trace)
      (cd0 : calcPoint) (w : world) :
  tallied w -> tallied (plot fmt deltaFmt c2p o mk tr cd0 w).
Proof.
  intros Hw.
  apply (tallied_grow w _
           (if hasTransition o
            then scheduledBy tr cd0 (if mk then Some (callbacks w) else None)
            else [])); auto.
  - destruct (hasTransition o); [apply scheduledBy_waiting | constructor].
  - apply plot_transitions.
  - apply plot_completions.
Qed.

Lemma step_tallied (ev : event) (w : world) :
  tallied w -> tallied (step fmt deltaFmt c2p ev w).
Proof.
  destruct ev; cbn.
  - apply plot_tallied.
  - apply start_tallied.
  - apply tick_tallied.
  - apply finish_tallied.
  - apply interruptAt_tallied.
Qed.

(** X22. However renders, starts, frames, ends and interruptions
    interleave, each completion callback has been called exactly once for
    every transition that holds it and has ended or been interrupted: a
    callback shared by the transitions of one render is called once per
    transition, and never for a transition that is still waiting or
    running, or that was dropped before it started. *)
Theorem callbacks_tallied (evs : list event) (c : nat) :
  callsOf c (completions (run fmt deltaFmt c2p evs initial))
  = length (List.filter (finishedHolding c)
                        (transitions (run fmt deltaFmt c2p evs initial))).
Proof.
  assert (H : forall w, tallied w -> tallied (run fmt deltaFmt c2p evs w)).
  { unfold run. induction evs as [| ev evs' IH]; intros w Hw; [assumption |].
    cbn. apply IH. now apply step_tallied. }
  apply (H initial). intros c'. reflexivity.
Qed.

End TallyTheorems.

(** ** The older layout variant *)

Section LegacyFacts.
Local Open Scope R_scope.

Lemma legacy_valueToAngle (tr : trace) (v : num) :
  Legacy.valueToAngle tr v = valueToAngle tr v.
Proof. reflexivity. Qed.

Lemma legacy_radius_fin (size : boxSize) (W H : R) :
  w size = Fin W -> h size = Fin H ->
  Legacy.radius size = Fin (Rmin (W / 2) (H * 0.65)).
Proof.
  intros Hw Hh. unfold Legacy.radius. rewrite Hw, Hh. unfold num2.
  now num_norm.
Qed.



(** X24. For a layout box of non-negative width, the radius of the
    angular gauge in the newer variant is never larger than in the older
    one. *)
Theorem radius_not_larger_than_legacy (size : boxSize) (W H : R) :
  w size = Fin W -> h size = Fin H -> 0 <= W ->
  exists rho rho' : R,
    radius size = Fin rho /\ Legacy.radius size = Fin rho' /\ rho <= rho'.
Proof.
  intros Hw Hh HW.
  exists (Rmin (0.85 * W / 2) (H * 0.65 - 20)), (Rmin (W / 2) (H * 0.65)).
  split.
  { unfold radius. rewrite Hw, Hh. unfold num2. now num_norm. }
  split; [now apply legacy_radius_fin |].
  unfold Rmin. destruct (Rle_dec _ _), (Rle_dec _ _); lra.
Qed.

Lemma radius_not_larger_than_legacy_witness :
  exists rho rho' : R,
    radius Sample.size = Fin rho /\ Legacy.radius Sample.size = Fin rho'
    /\ rho <= rho'.
Proof.
  apply (radius_not_larger_than_legacy Sample.size 400 300);
    try reflexivity; lra.
Defined.

End LegacyFacts.

(** ** The test runner configuration *)

Section KarmaFacts.
Import Stdlib.Strings.Ascii.

Lemma split_nonempty (s : string) : Karma.split s <> [].
Proof.
  induction s as [| c s IH]; cbn; [discriminate |].
  destruct (Karma.isComma c); [discriminate |].
  destruct (Karma.split s); discriminate.
Qed.

Lemma isComma_eq (c : Ascii.ascii) : Karma.isComma c = true -> c = ","%char.
Proof.
  unfold Karma.isComma. apply Ascii.eqb_eq.
Qed.

Lemma split_commaFree (s : string) :
  Forall (fun p => Karma.commaFree p = true) (Karma.split s).
Proof.
  induction s as [| c s IH]; cbn.
  - repeat constructor.
  - destruct (Karma.isComma c) eqn:Hc.
    + constructor; [reflexivity | exact IH].
    + destruct (Karma.split s) as [| hd tl].
      * constructor; [cbn; now rewrite Hc | constructor].
      * inversion IH as [| ? ? Hhd Htl]; subst.
        constructor; [cbn; now rewrite Hc, Hhd | exact Htl].
Qed.

Lemma join_cons_char (c : Ascii.ascii) (hd : string) (tl : list string) :
  Karma.join (String c hd :: tl) = String c (Karma.join (hd :: tl)).
Proof.
  destruct tl; reflexivity.
Qed.

Lemma join_split (s : string) : Karma.join (Karma.split s) = s.
Proof.
  induction s as [| c s IH]; [reflexivity |].
  cbn [Karma.split].
  pose proof (split_nonempty s) as Hne.
  destruct (Karma.isComma c) eqn:Hc.
  - apply isComma_eq in Hc. subst c.
    destruct (Karma.split s) as [| hd tl]; [contradiction |].
    cbn [Karma.join String.append]. cbn [Karma.join] in IH.
    now rewrite IH.
  - destruct (Karma.split s) as [| hd tl]; [contradiction |].
    rewrite join_cons_char. now rewrite IH.
Qed.

Lemma split_app_comma (a s : string) :
  Karma.split (String.append a (String ","%char s))
  = Karma.split a ++ Karma.split s.
Proof.
  induction a as [| c a IH]; [reflexivity |].
  simpl. rewrite IH.
  destruct (Karma.isComma c); [reflexivity |].
  pose proof (split_nonempty a) as Hne.
  destruct (Karma.split a) as [| hd tl]; [contradiction | reflexivity].
Qed.

Lemma split_whole (s : string) :
  Karma.commaFree s = true -> Karma.split s = [s].
Proof.
  induction s as [| c s IH]; [reflexivity |].
  cbn. destruct (Karma.isComma c); [discriminate |].
  cbn. intros Hs. now rewrite (IH Hs).
Qed.

Lemma merge_fold (l : list string) (acc : list string) :
  List.fold_left (fun list p => list ++ Karma.split p) l acc
  = acc ++ List.concat (List.map Karma.split l).
Proof.
  revert acc. induction l as [| p l IH]; intros acc; cbn.
  - now rewrite List.app_nil_r.
  - rewrite IH. now rewrite <- List.app_assoc.
Qed.

Lemma split_join_concat (l : list string) :
  l <> [] ->
  Karma.split (Karma.join l) = List.concat (List.map Karma.split l).
Proof.
  induction l as [| x l IH]; [contradiction |]. intros _.
  destruct l as [| y r].
  - cbn. now rewrite List.app_nil_r.
  - change (Karma.join (x :: y :: r))
      with (String.append x (String ","%char (Karma.join (y :: r)))).
    rewrite split_app_comma, IH by discriminate. reflexivity.
Qed.

Lemma concat_split_whole (l : list string) :
  Forall (fun p => Karma.commaFree p = true) l ->
  List.concat (List.map Karma.split l) = l.
Proof.
  induction 1 as [| x l Hx _ IH]; [reflexivity |].
  cbn. rewrite (split_whole x Hx), IH. reflexivity.
Qed.

(** X25. [merge] cuts its argument at the commas: none of the names it
    returns contains a comma, a single value always yields at least one
    name, and joining those names with commas gives the value back. *)
Theorem merge_cuts_at_commas (v : Karma.argValue) (s : string) :
  Forall (fun p => Karma.commaFree p = true) (Karma.merge v)
  /\ Karma.merge (Karma.One s) <> []
  /\ Karma.join (Karma.merge (Karma.One s)) = s.
Proof.
  assert (Hone : Karma.merge (Karma.One s) = Karma.split s).
  { unfold Karma.merge. rewrite merge_fold. cbn. now rewrite List.app_nil_r. }
  split.
  - unfold Karma.merge. rewrite merge_fold. cbn [app].
    destruct v as [p | l]; cbn [List.map List.concat].
    + rewrite List.app_nil_r. apply split_commaFree.
    + induction l as [| p l IH]; cbn; [constructor |].
      apply Forall_app. split; [apply split_commaFree | exact IH].
  - rewrite Hone. split; [apply split_nonempty | apply join_split].
Qed.

(** X26. Giving the option several times is the same as giving it once
    with the values separated by commas; and names without commas come
    back unchanged. *)
Theorem merge_repeated_option (l : list string) :
  l <> [] ->
  Karma.merge (Karma.Many l) = Karma.merge (Karma.One (Karma.join l))
  /\ (Forall (fun p => Karma.commaFree p = true) l ->
      Karma.merge (Karma.Many l) = l).
Proof.
  intros Hl. unfold Karma.merge. rewrite !merge_fold. cbn [app].
  split.
  - cbn [List.map List.concat]. rewrite List.app_nil_r.
    symmetry. now apply split_join_concat.
  - apply concat_split_whole.
Qed.

Lemma merge_repeated_option_witness :
  Karma.merge (Karma.Many ["indicator"; "pie,bar"])
  = Karma.merge (Karma.One (Karma.join ["indicator"; "pie,bar"]))
  /\ (Forall (fun p => Karma.commaFree p = true) ["indicator"; "pie,bar"] ->
      Karma.merge (Karma.Many ["indicator"; "pie,bar"])
      = ["indicator"; "pie,bar"]).
Proof.
  apply (merge_repeated_option ["indicator"; "pie,bar"]). discriminate.
Defined.

(** X27. A single test name without a comma gives a glob without braces:
    the name followed by the suffix. *)
Theorem glob_of_single_name (s : string) :
  Karma.commaFree s = true ->
  Karma.glob (Karma.merge (Karma.One s)) = String.append s Karma.SUFFIX.
Proof.
  intros Hs. unfold Karma.merge. rewrite merge_fold. cbn.
  rewrite List.app_nil_r, (split_whole s Hs). reflexivity.
Qed.

Lemma glob_of_single_name_witness :
  Karma.glob (Karma.merge (Karma.One "indicator")) = "indicator_test.js".
Proof.
  apply (glob_of_single_name "indicator"). reflexivity.
Defined.

(** X28. The list of browsers is never empty and has no duplicate; Chrome
    is in it exactly when it is asked for or when no browser is asked
    for. *)
Theorem browsers_default (argv : Karma.browserFlags) :
  Karma.browsers argv <> []
  /\ List.NoDup (Karma.browsers argv)
  /\ (List.In "_Chrome" (Karma.browsers argv)
      <-> Karma.Chrome argv = true
          \/ (Karma.Firefox argv = false /\ Karma.IE11 argv = false)).
Proof.
  destruct argv as [[] [] []]; cbn;
    (split; [discriminate |]);
    (split;
     [ repeat (apply List.NoDup_cons;
               [cbn; intuition discriminate |]);
       apply List.NoDup_nil
     | split;
       [ intros H; intuition (try discriminate; auto)
       | intros H; intuition (try discriminate; auto) ] ]).
Qed.

End KarmaFacts.
